(** * Native runtime support: 64-bit arithmetic intrinsics and the bump
      allocator of [vm/native/native.cpp]

    The file embeds the C++ translation unit function by function:
    - the ten [extern "C"] arithmetic entry points [lAdd] ... [lCmp];
    - the allocator state (the globals [heap] and [bump]) with [gcMalloc];
    - [main], which reserves the heap.

    Machine integers are mathematical integers ([Z]) with the wrap-around
    of the host written out.  The host is a two's-complement machine:
    [+], [-] and [*] on [int64_t] keep the low 64 bits, a 64-bit shift takes
    its count modulo 64, and integer division traps where the quotient does
    not exist or does not fit.  Every entry point of the arithmetic unit reads
    its operands through the input pointers and stores once through [result];
    the embedding takes the operand values and returns the stored value. *)

From Stdlib Require Import ZArith List Lia Bool Sorted.
Import ListNotations.
Local Open Scope Z_scope.

(** ** Fixed-width integers *)

Module Int.

(** Signed and unsigned reduction of an integer to [w] bits. *)
Definition unsigned_wrap (w z : Z) : Z := z mod 2 ^ w.
Definition signed_wrap (w z : Z) : Z := (z + 2 ^ (w - 1)) mod 2 ^ w - 2 ^ (w - 1).

Definition min_signed (w : Z) : Z := - 2 ^ (w - 1).
Definition max_signed (w : Z) : Z := 2 ^ (w - 1) - 1.

Definition in_signed (w z : Z) : Prop := min_signed w <= z <= max_signed w.
Definition in_unsigned (w z : Z) : Prop := 0 <= z < 2 ^ w.

End Int.

(** ** The arithmetic unit *)

Definition INT64_MIN : Z := Int.min_signed 64.
Definition INT64_MAX : Z := Int.max_signed 64.
Definition INT32_MIN : Z := Int.min_signed 32.
Definition INT32_MAX : Z := Int.max_signed 32.

(** Values of type [int64_t], [int32_t]. *)
Definition in_int64 (z : Z) : Prop := Int.in_signed 64 z.
Definition in_int32 (z : Z) : Prop := Int.in_signed 32 z.

Definition wrap64 (z : Z) : Z := Int.signed_wrap 64 z.
Definition wrap32 (z : Z) : Z := Int.signed_wrap 32 z.

(** [*result = *l + *r;] *)
Definition lAdd (l r : Z) : Z := wrap64 (l + r).

(** [*result = -*l;] *)
Definition lNeg (l : Z) : Z := wrap64 (- l).

(** [*result = *l - *r;] *)
Definition lSub (l r : Z) : Z := wrap64 (l - r).

(** [*result = *l / *r;]  The division instruction traps ([None]) on a zero
    divisor and on the one quotient that is not a 64-bit value,
    [INT64_MIN / -1]; C++ leaves both cases undefined.  Elsewhere [/]
    truncates toward zero ([Z.quot]). *)
Definition lDiv (l r : Z) : option Z :=
  if r =? 0 then None
  else if (l =? INT64_MIN) && (r =? -1) then None
  else Some (Z.quot l r).

(** [*result = *l * *r;] *)
Definition lMul (l r : Z) : Z := wrap64 (l * r).

(** [*result = *l % *r;]  Same instruction and same traps as [lDiv]. *)
Definition lRem (l r : Z) : option Z :=
  if r =? 0 then None
  else if (l =? INT64_MIN) && (r =? -1) then None
  else Some (Z.rem l r).

(** The count of a 64-bit shift: the low six bits of the [int32_t] operand. *)
Definition shift_count (v : Z) : Z := Z.land v 63.

(** [*result = *l << v;] *)
Definition lShl (l v : Z) : Z := wrap64 (Z.shiftl l (shift_count v)).

(** [*result = *l >> v;] *)
Definition lShr (l v : Z) : Z := Z.shiftr l (shift_count v).

(** [*result = (uint64_t)*l >> v;] the quotient is stored back as [int64_t]. *)
Definition lUshr (l v : Z) : Z :=
  wrap64 (Z.shiftr (Int.unsigned_wrap 64 l) (shift_count v)).

(** Stores [1] when [l > r], else [-1] when [l < r], else [0]: the
    three branches of the source, tested in that order. *)
Definition lCmp (l r : Z) : Z :=
  if l >? r then 1
  else if l <? r then -1
  else 0.

(** ** The bump allocator *)

(** [uintptr_t heap = 0, bump = 0;]  The two globals are the whole state. *)
Record heap_state : Type := HeapState { heap : Z; bump : Z }.

Definition startup_state : heap_state := {| heap := 0; bump := 0 |}.

(** [uintptr_t] is as wide as a pointer of the target ([ptr_bits] bits, 32 on
    a 32-bit target and 64 on a 64-bit one); its arithmetic is modulo
    [2 ^ ptr_bits], and an [int] operand is converted to it first. *)
Definition to_uintptr (ptr_bits z : Z) : Z := Int.unsigned_wrap ptr_bits z.

(** [(size + 3) & ~0x03], evaluated in [int]. *)
Definition rounded_size (size : Z) : Z := Z.land (wrap32 (size + 3)) (Z.lnot 3).

(** [uintptr_t curr = bump; bump += (size + 3) & ~0x03; return curr;]
    The result is the returned address paired with the state left behind. *)
Definition gcMalloc (ptr_bits size : Z) (st : heap_state) : Z * heap_state :=
  let curr := bump st in
  (curr,
   {| heap := heap st;
      bump := to_uintptr ptr_bits (bump st + to_uintptr ptr_bits (rounded_size size)) |}).

(** A caller issuing one [gcMalloc] per element of [sizes], in order; the
    addresses come back in call order. *)
Fixpoint gcMalloc_all (ptr_bits : Z) (sizes : list Z) (st : heap_state)
  : list Z * heap_state :=
  match sizes with
  | [] => ([], st)
  | size :: rest =>
      let (addr, st1) := gcMalloc ptr_bits size st in
      let (addrs, st2) := gcMalloc_all ptr_bits rest st1 in
      (addr :: addrs, st2)
  end.

(** The byte range a call hands out: its address and its rounded length. *)
Definition block : Type := (Z * Z)%type.

Definition blocks_of (ptr_bits : Z) (sizes : list Z) (st : heap_state) : list block :=
  combine (fst (gcMalloc_all ptr_bits sizes st)) (map rounded_size sizes).

(** [[a1, a1 + n1)] and [[a2, a2 + n2)] share no byte. *)
Definition disjoint (b1 b2 : block) : Prop :=
  fst b1 + snd b1 <= fst b2 \/ fst b2 + snd b2 <= fst b1.

Definition total_rounded (sizes : list Z) : Z :=
  fold_right Z.add 0 (map rounded_size sizes).

(** A request for at least one byte whose rounding [size + 3] does not
    overflow [int]. *)
Definition positive_request (size : Z) : Prop := 0 < size <= INT32_MAX - 3.

(** The address lies a multiple of 4 bytes away from [base]. *)
Definition aligned_from (base addr : Z) : Prop := (addr - base) mod 4 = 0.

(** ** Process start *)

(** How a run of [main] ends: it returns with an exit status, leaving the
    globals in some state, or the process is torn down by a fatal error. *)
Inductive outcome : Type :=
| Exited (status : Z) (st : heap_state)
| Aborted.

Definition NULL : Z := 0.
Definition HEAP_BYTES : Z := 1024 * 1024 * 16.

(** [bump = heap = (uintptr_t)malloc(1024 * 1024 * 16);] and the implicit
    [return 0].  [malloc] is the C library's: given a byte count it answers
    the address of a block of that many bytes, or [NULL] when the request
    cannot be satisfied. *)
Definition main (ptr_bits : Z) (malloc : Z -> Z) : outcome :=
  let p := to_uintptr ptr_bits (malloc HEAP_BYTES) in
  Exited 0 {| heap := p; bump := p |}.

(** * Facts about fixed-width integers *)

Module IntFacts.
Import Int.

Section Width.

Variable w : Z.
Hypothesis w_pos : 0 < w.

Lemma half_modulus : 2 ^ w = 2 * 2 ^ (w - 1).
Proof.
  replace w with (1 + (w - 1)) at 1 by lia.
  rewrite Z.pow_add_r by lia. reflexivity.
Qed.

Lemma half_modulus_pos : 0 < 2 ^ (w - 1).
Proof. apply Z.pow_pos_nonneg; lia. Qed.

Lemma signed_wrap_range z : in_signed w (signed_wrap w z).
Proof.
  unfold in_signed, signed_wrap, min_signed, max_signed.
  pose proof half_modulus as Hm. pose proof half_modulus_pos as Hp.
  pose proof (Z.mod_pos_bound (z + 2 ^ (w - 1)) (2 ^ w)) as Hb. lia.
Qed.

Lemma signed_wrap_congruent z : (signed_wrap w z) mod 2 ^ w = z mod 2 ^ w.
Proof.
  unfold signed_wrap.
  rewrite Zminus_mod_idemp_l. f_equal. lia.
Qed.

Lemma signed_wrap_small z : in_signed w z -> signed_wrap w z = z.
Proof.
  unfold in_signed, signed_wrap, min_signed, max_signed. intros Hz.
  pose proof half_modulus as Hm.
  rewrite Z.mod_small by lia. lia.
Qed.

(** Two in-range integers that agree modulo [2 ^ w] are equal. *)
Lemma signed_congruent_eq a b :
  in_signed w a -> in_signed w b -> a mod 2 ^ w = b mod 2 ^ w -> a = b.
Proof.
  unfold in_signed, min_signed, max_signed. intros Ha Hb Hab.
  pose proof half_modulus as Hm. pose proof half_modulus_pos as Hp.
  rewrite (Z.mod_eq a), (Z.mod_eq b) in Hab by lia.
  assert (Hq : a / 2 ^ w = b / 2 ^ w \/ a / 2 ^ w <> b / 2 ^ w) by lia.
  destruct Hq as [Hq|Hq]; [rewrite Hq in Hab; lia|].
  exfalso.
  assert (Hd : a - b = 2 ^ w * (a / 2 ^ w - b / 2 ^ w)) by lia.
  assert (Hk : a / 2 ^ w - b / 2 ^ w <> 0) by lia.
  nia.
Qed.

Lemma signed_wrap_idem_l a b :
  signed_wrap w (signed_wrap w a + b) = signed_wrap w (a + b).
Proof.
  apply signed_congruent_eq; try apply signed_wrap_range.
  rewrite !signed_wrap_congruent.
  rewrite <- Zplus_mod_idemp_l, signed_wrap_congruent, Zplus_mod_idemp_l.
  reflexivity.
Qed.

Lemma unsigned_wrap_range z : in_unsigned w (unsigned_wrap w z).
Proof.
  unfold in_unsigned, unsigned_wrap. apply Z.mod_pos_bound.
  apply Z.pow_pos_nonneg; lia.
Qed.

Lemma unsigned_wrap_small z : in_unsigned w z -> unsigned_wrap w z = z.
Proof. unfold in_unsigned, unsigned_wrap. intros Hz. apply Z.mod_small, Hz. Qed.

End Width.

End IntFacts.

(** * The arithmetic unit *)

Section Arithmetic.
Import Int IntFacts.

Lemma int64_bounds z : in_int64 z <-> -9223372036854775808 <= z <= 9223372036854775807.
Proof. unfold in_int64, in_signed, min_signed, max_signed. simpl. lia. Qed.

Lemma int32_bounds z : in_int32 z <-> -2147483648 <= z <= 2147483647.
Proof. unfold in_int32, in_signed, min_signed, max_signed. simpl. lia. Qed.

Lemma wrap64_range z : in_int64 (wrap64 z).
Proof. apply signed_wrap_range. lia. Qed.

Lemma wrap64_congruent z : wrap64 z mod 2 ^ 64 = z mod 2 ^ 64.
Proof. apply signed_wrap_congruent. Qed.

Lemma wrap64_small z : in_int64 z -> wrap64 z = z.
Proof. apply signed_wrap_small. lia. Qed.

Lemma wrap32_range z : in_int32 (wrap32 z).
Proof. apply signed_wrap_range. lia. Qed.

Lemma wrap32_small z : in_int32 z -> wrap32 z = z.
Proof. apply signed_wrap_small. lia. Qed.

(** Wrapping keeps the low 64 bits. *)
Lemma wrap64_testbit z i : 0 <= i < 64 -> Z.testbit (wrap64 z) i = Z.testbit z i.
Proof.
  intros Hi.
  rewrite <- (Z.mod_pow2_bits_low (wrap64 z) 64 i) by lia.
  rewrite wrap64_congruent. apply Z.mod_pow2_bits_low. lia.
Qed.

End Arithmetic.

(** Closes a range goal on literals. *)
Ltac range_by_computation :=
  repeat match goal with
         | |- in_int64 _ => apply int64_bounds
         | |- in_int32 _ => apply int32_bounds
         end;
  cbv; split; discriminate.

(** C5: [lAdd] is the two's-complement sum, i.e. the one 64-bit value
    congruent to [l + r] modulo [2 ^ 64] (the exact sum when that fits), and
    [lSub l r] plus [r] is [l] modulo [2 ^ 64]; with the sum taken by [lAdd]
    itself, subtracting then adding [r] gives back [l]. *)
Theorem lAdd_lSub_wrap (l r : Z) :
  in_int64 l -> in_int64 r ->
  (in_int64 (lAdd l r) /\ lAdd l r mod 2 ^ 64 = (l + r) mod 2 ^ 64)
  /\ (in_int64 (l + r) -> lAdd l r = l + r)
  /\ (lSub l r + r) mod 2 ^ 64 = l mod 2 ^ 64
  /\ lAdd (lSub l r) r = l.
Proof.
  intros Hl Hr. unfold lAdd, lSub.
  split; [split; [apply wrap64_range|apply wrap64_congruent]|].
  split; [apply wrap64_small|].
  split.
  - rewrite <- Zplus_mod_idemp_l, wrap64_congruent, Zplus_mod_idemp_l.
    f_equal. lia.
  - unfold wrap64. rewrite IntFacts.signed_wrap_idem_l by lia.
    replace (l - r + r) with l by lia. apply wrap64_small, Hl.
Qed.

Lemma lAdd_lSub_wrap_witness :
  in_int64 (-9223372036854775808) /\ in_int64 1
  /\ lAdd (lSub (-9223372036854775808) 1) 1 = -9223372036854775808.
Proof.
  assert (Hmin : in_int64 (-9223372036854775808)) by range_by_computation.
  assert (Hone : in_int64 1) by range_by_computation.
  refine (conj Hmin (conj Hone _)).
  exact (proj2 (proj2 (proj2 (lAdd_lSub_wrap (-9223372036854775808) 1 Hmin Hone)))).
Defined.

(** C6: negating twice gives the operand back for every 64-bit value other
    than the most negative one (where negation is the exact opposite), and the
    most negative value negates to itself. *)
Theorem lNeg_involutive (x : Z) :
  in_int64 x ->
  (x <> INT64_MIN -> lNeg x = - x /\ lNeg (lNeg x) = x)
  /\ lNeg INT64_MIN = INT64_MIN.
Proof.
  intros Hx. split; [|reflexivity].
  intros Hne.
  assert (Hopp : in_int64 (- x)).
  { apply int64_bounds. apply -> int64_bounds in Hx.
    change INT64_MIN with (-9223372036854775808) in Hne. lia. }
  unfold lNeg. rewrite (wrap64_small (- x)) by exact Hopp.
  split; [reflexivity|].
  rewrite Z.opp_involutive. apply wrap64_small, Hx.
Qed.

Lemma lNeg_involutive_witness :
  in_int64 9223372036854775807
  /\ lNeg (lNeg 9223372036854775807) = 9223372036854775807
  /\ lNeg INT64_MIN = INT64_MIN.
Proof.
  assert (Hmax : in_int64 9223372036854775807) by range_by_computation.
  destruct (lNeg_involutive 9223372036854775807 Hmax) as [Hinv Hmin].
  refine (conj Hmax (conj (proj2 (Hinv _)) Hmin)).
  cbv. discriminate.
Defined.

(** C9: [lCmp] stores 1 exactly when [l > r], -1 exactly when [l < r] and 0
    exactly when [l = r]; the stored value is a 32-bit integer.  The
    statement holds in particular at [l = r = 0] and at the 64-bit
    extremes. *)
Theorem lCmp_three_way (l r : Z) :
  (lCmp l r = 1 <-> l > r)
  /\ (lCmp l r = -1 <-> l < r)
  /\ (lCmp l r = 0 <-> l = r)
  /\ in_int32 (lCmp l r)
  /\ lCmp 0 0 = 0
  /\ lCmp INT64_MAX INT64_MIN = 1
  /\ lCmp INT64_MIN INT64_MAX = -1
  /\ lCmp INT64_MIN INT64_MIN = 0
  /\ lCmp INT64_MAX INT64_MAX = 0.
Proof.
  repeat match goal with |- _ /\ _ => split end; try reflexivity.
  all: unfold lCmp.
  all: destruct (Z.gtb_spec l r) as [Hgt|Hle];
    [|destruct (Z.ltb_spec l r) as [Hlt|Hge]].
  all: try (apply int32_bounds; lia).
  all: split; intros H; (discriminate H || lia || reflexivity).
Qed.

Lemma shift_count_mod (v : Z) : shift_count v = v mod 64.
Proof.
  unfold shift_count. change 63 with (Z.ones 6). change 64 with (2 ^ 6).
  apply Z.land_ones. lia.
Qed.

Lemma shift_count_range (v : Z) : 0 <= shift_count v < 64.
Proof. rewrite shift_count_mod. apply Z.mod_pos_bound. lia. Qed.

(** C7: [lShl] shifts by the count taken modulo 64 (the low six bits of
    [s]): the stored value is the 64-bit integer congruent to
    [l * 2 ^ (s mod 64)], its bit [i] is bit [i - s mod 64] of [l] (zero
    below the count), and the bits moved past position 63 are dropped. *)
Theorem lShl_shifts_modulo_64 (l s : Z) :
  shift_count s = s mod 64
  /\ 0 <= s mod 64 < 64
  /\ in_int64 (lShl l s)
  /\ lShl l s mod 2 ^ 64 = (l * 2 ^ (s mod 64)) mod 2 ^ 64
  /\ (forall i, 0 <= i < 64 ->
        Z.testbit (lShl l s) i
        = if i <? s mod 64 then false else Z.testbit l (i - s mod 64)).
Proof.
  pose proof (shift_count_mod s) as Hc.
  pose proof (shift_count_range s) as Hr. rewrite Hc in Hr.
  split; [exact Hc|]. split; [exact Hr|].
  unfold lShl. rewrite Hc.
  split; [apply wrap64_range|].
  split.
  - rewrite wrap64_congruent, Z.shiftl_mul_pow2 by lia. reflexivity.
  - intros i Hi. rewrite wrap64_testbit by exact Hi.
    rewrite Z.shiftl_spec by lia.
    destruct (Z.ltb_spec i (s mod 64)) as [Hlt|Hge]; [|reflexivity].
    apply Z.testbit_neg_r. lia.
Qed.

(** Truncated division of 64-bit operands stays in range except for
    [INT64_MIN / -1]. *)
Lemma quot_in_int64 (l r : Z) :
  in_int64 l -> r <> 0 -> ~ (l = INT64_MIN /\ r = -1) -> in_int64 (Z.quot l r).
Proof.
  intros Hl Hr Hov. apply int64_bounds. apply -> int64_bounds in Hl.
  change INT64_MIN with (-9223372036854775808) in Hov.
  pose proof (Z.quot_rem' l r) as Heq.
  pose proof (Z.rem_bound_abs l r Hr) as Hb.
  assert (Hs : Z.rem l r = 0 \/ Z.sgn (Z.rem l r) = Z.sgn l).
  { destruct (Z.eq_dec (Z.rem l r) 0) as [H0|Hn]; [left; exact H0|right].
    apply Z.rem_sign_nz; assumption. }
  revert Heq Hb Hs. generalize (Z.quot l r) (Z.rem l r). intros q m Heq Hb Hs.
  assert (Hcase : r = -1 \/ r = 1 \/ r <= -2 \/ 2 <= r) by lia.
  destruct Hcase as [Hm1|[H1|[Hn|Hp]]].
  - subst r. lia.
  - subst r. lia.
  - destruct Hs as [Hs|Hs]; [nia|].
    destruct (Z.sgn_spec m) as [[? ?]|[[? ?]|[? ?]]],
             (Z.sgn_spec l) as [[? ?]|[[? ?]|[? ?]]]; try lia; nia.
  - destruct Hs as [Hs|Hs]; [nia|].
    destruct (Z.sgn_spec m) as [[? ?]|[[? ?]|[? ?]]],
             (Z.sgn_spec l) as [[? ?]|[[? ?]|[? ?]]]; try lia; nia.
Qed.

Lemma division_traps_iff (l r : Z) :
  ((r =? 0) = true \/ ((l =? INT64_MIN) && (r =? -1)) = true)
  <-> (r = 0 \/ (l = INT64_MIN /\ r = -1)).
Proof.
  rewrite andb_true_iff, !Z.eqb_eq. reflexivity.
Qed.

Lemma lDiv_traps (l r : Z) :
  lDiv l r = None <-> (r = 0 \/ (l = INT64_MIN /\ r = -1)).
Proof.
  rewrite <- division_traps_iff. unfold lDiv.
  destruct (r =? 0); [intuition|].
  destruct ((l =? INT64_MIN) && (r =? -1)); [intuition|].
  split; [discriminate|intros [H|H]; discriminate H].
Qed.

Lemma lRem_traps (l r : Z) :
  lRem l r = None <-> (r = 0 \/ (l = INT64_MIN /\ r = -1)).
Proof.
  rewrite <- division_traps_iff. unfold lRem.
  destruct (r =? 0); [intuition|].
  destruct ((l =? INT64_MIN) && (r =? -1)); [intuition|].
  split; [discriminate|intros [H|H]; discriminate H].
Qed.

Lemma lDiv_defined (l r : Z) :
  r <> 0 -> ~ (l = INT64_MIN /\ r = -1) -> lDiv l r = Some (Z.quot l r).
Proof.
  intros Hr Hov. pose proof (lDiv_traps l r) as Ht. unfold lDiv in *.
  destruct (r =? 0); [exfalso; tauto|].
  destruct ((l =? INT64_MIN) && (r =? -1)); [exfalso; tauto|reflexivity].
Qed.

Lemma lRem_defined (l r : Z) :
  r <> 0 -> ~ (l = INT64_MIN /\ r = -1) -> lRem l r = Some (Z.rem l r).
Proof.
  intros Hr Hov. pose proof (lRem_traps l r) as Ht. unfold lRem in *.
  destruct (r =? 0); [exfalso; tauto|].
  destruct ((l =? INT64_MIN) && (r =? -1)); [exfalso; tauto|reflexivity].
Qed.

(** C4, as the code has it: [lDiv] and [lRem] trap exactly when the divisor
    is zero or the operands are [INT64_MIN] and [-1] (the quotient [2 ^ 63]
    is not a 64-bit value).  Everywhere else [lDiv] stores the quotient
    truncated toward zero and [lRem] the matching remainder, which is zero or
    has the sign of [l]; [lDiv 7 2] is [3] and [lDiv (-7) 2] is [-3]. *)
Theorem lDiv_lRem_truncate (l r : Z) :
  in_int64 l -> in_int64 r ->
  (lDiv l r = None <-> r = 0 \/ (l = INT64_MIN /\ r = -1))
  /\ (lRem l r = None <-> r = 0 \/ (l = INT64_MIN /\ r = -1))
  /\ (r <> 0 -> ~ (l = INT64_MIN /\ r = -1) ->
      exists q m,
        lDiv l r = Some q /\ lRem l r = Some m
        /\ in_int64 q /\ in_int64 m
        /\ l = r * q + m
        /\ Z.abs m < Z.abs r
        /\ Z.abs (r * q) <= Z.abs l
        /\ (m = 0 \/ Z.sgn m = Z.sgn l))
  /\ lDiv 7 2 = Some 3
  /\ lDiv (-7) 2 = Some (-3).
Proof.
  intros Hl Hr.
  split; [apply lDiv_traps|]. split; [apply lRem_traps|].
  split; [|split; reflexivity].
  intros Hnz Hov.
  exists (Z.quot l r), (Z.rem l r).
  pose proof (Z.rem_bound_abs l r Hnz) as Hb.
  assert (Hs : Z.rem l r = 0 \/ Z.sgn (Z.rem l r) = Z.sgn l).
  { destruct (Z.eq_dec (Z.rem l r) 0) as [H0|Hn]; [left; exact H0|right].
    apply Z.rem_sign_nz; assumption. }
  split; [apply lDiv_defined; assumption|].
  split; [apply lRem_defined; assumption|].
  split; [apply quot_in_int64; assumption|].
  split.
  { apply int64_bounds. apply -> int64_bounds in Hr. lia. }
  split; [apply Z.quot_rem'|].
  split; [exact Hb|].
  split; [|exact Hs].
  pose proof (Z.quot_rem' l r) as Heq.
  assert (Hq : r * Z.quot l r = 0 \/ Z.abs r <= Z.abs (r * Z.quot l r)).
  { rewrite Z.abs_mul. destruct (Z.eq_dec (Z.quot l r) 0) as [H0|Hn].
    - left. rewrite H0. lia.
    - right. assert (1 <= Z.abs (Z.quot l r)) by lia. nia. }
  destruct Hs as [Hs|Hs]; [rewrite Hs in Heq; lia|].
  destruct (Z.sgn_spec (Z.rem l r)) as [[? ?]|[[? ?]|[? ?]]],
           (Z.sgn_spec l) as [[? ?]|[[? ?]|[? ?]]]; lia.
Qed.

Lemma lDiv_lRem_truncate_witness :
  in_int64 (-7) /\ in_int64 2
  /\ exists q m,
       lDiv (-7) 2 = Some q /\ lRem (-7) 2 = Some m
       /\ in_int64 q /\ in_int64 m
       /\ -7 = 2 * q + m
       /\ Z.abs m < Z.abs 2
       /\ Z.abs (2 * q) <= Z.abs (-7)
       /\ (m = 0 \/ Z.sgn m = Z.sgn (-7)).
Proof.
  assert (Hl : in_int64 (-7)) by range_by_computation.
  assert (Hr : in_int64 2) by range_by_computation.
  refine (conj Hl (conj Hr _)).
  apply (proj1 (proj2 (proj2 (lDiv_lRem_truncate (-7) 2 Hl Hr)))).
  - discriminate.
  - intros [H _]. discriminate H.
Defined.

(** C4 as stated fails at [INT64_MIN / -1]: the divisor is not zero, yet
    both operations trap, and no 64-bit value is the truncated quotient. *)
Lemma lDiv_min_by_minus_one :
  in_int64 INT64_MIN /\ in_int64 (-1) /\ -1 <> 0
  /\ lDiv INT64_MIN (-1) = None
  /\ lRem INT64_MIN (-1) = None
  /\ ~ in_int64 (Z.quot INT64_MIN (-1)).
Proof.
  split; [range_by_computation|]. split; [range_by_computation|].
  split; [discriminate|]. split; [reflexivity|]. split; [reflexivity|].
  intros H. apply -> int64_bounds in H. cbv in H. destruct H as [_ H].
  apply H. reflexivity.
Qed.

(** ** The remaining entry points on sample operands *)

Example lMul_wraps : lMul INT64_MAX 2 = -2.
Proof. reflexivity. Qed.

Example lShl_count_above_63 : lShl 1 65 = 2 /\ lShl 1 (-1) = INT64_MIN.
Proof. split; reflexivity. Qed.

Example lShr_extends_sign : lShr (-8) 1 = -4 /\ lShr (-1) 63 = -1.
Proof. split; reflexivity. Qed.

Example lUshr_fills_with_zeros : lUshr (-1) 60 = 15 /\ lUshr (-1) 0 = -1.
Proof. split; reflexivity. Qed.

Example lRem_follows_dividend : lRem (-7) 2 = Some (-1) /\ lRem 7 (-2) = Some 1.
Proof. split; reflexivity. Qed.

Example lDiv_by_zero : lDiv 1 0 = None /\ lRem 1 0 = None.
Proof. split; reflexivity. Qed.

(** * The bump allocator *)

(** ** The rounded size *)

(** [x & ~3] clears the two low bits. *)
Lemma land_lnot_3 (x : Z) : Z.land x (Z.lnot 3) = 4 * (x / 4).
Proof.
  rewrite <- Z.ldiff_land. change 3 with (Z.ones 2).
  rewrite Z.ldiff_ones_r by lia.
  rewrite Z.shiftl_mul_pow2, Z.shiftr_div_pow2 by lia.
  change (2 ^ 2) with 4. apply Z.mul_comm.
Qed.

Lemma rounded_size_multiple_of_4 (size : Z) : rounded_size size mod 4 = 0.
Proof.
  unfold rounded_size. rewrite land_lnot_3.
  rewrite Z.mul_comm. apply Z.mod_mul. lia.
Qed.

Lemma rounded_size_in_int32 (size : Z) : in_int32 (rounded_size size).
Proof.
  unfold rounded_size. rewrite land_lnot_3.
  pose proof (wrap32_range (size + 3)) as Hr. apply -> int32_bounds in Hr.
  apply int32_bounds. Z.div_mod_to_equations. lia.
Qed.

(** Without overflow of [size + 3] the rounded size is [size] rounded up to
    the next multiple of 4. *)
Lemma rounded_size_exact (size : Z) :
  in_int32 (size + 3) ->
  rounded_size size = 4 * ((size + 3) / 4)
  /\ size <= rounded_size size <= size + 3.
Proof.
  intros Hs. unfold rounded_size.
  rewrite wrap32_small by exact Hs. rewrite land_lnot_3.
  Z.div_mod_to_equations. lia.
Qed.

(** ** One call *)

Section OneCall.
Variable ptr_bits : Z.

Lemma gcMalloc_addr size st : fst (gcMalloc ptr_bits size st) = bump st.
Proof. reflexivity. Qed.

Lemma gcMalloc_heap size st : heap (snd (gcMalloc ptr_bits size st)) = heap st.
Proof. reflexivity. Qed.

(** The conversion of the [int] operand is absorbed by the final
    reduction. *)
Lemma gcMalloc_bump size st :
  bump (snd (gcMalloc ptr_bits size st))
  = (bump st + rounded_size size) mod 2 ^ ptr_bits.
Proof.
  unfold gcMalloc, to_uintptr, Int.unsigned_wrap. simpl.
  apply Zplus_mod_idemp_r.
Qed.

Lemma gcMalloc_bump_exact size st :
  0 <= bump st + rounded_size size < 2 ^ ptr_bits ->
  bump (snd (gcMalloc ptr_bits size st)) = bump st + rounded_size size.
Proof. intros Hb. rewrite gcMalloc_bump. apply Z.mod_small, Hb. Qed.

Hypothesis ptr_bits_ge : 32 <= ptr_bits.

Lemma four_divides_modulus : (4 | 2 ^ ptr_bits).
Proof.
  exists (2 ^ (ptr_bits - 2)).
  replace ptr_bits with ((ptr_bits - 2) + 2) at 1 by lia.
  rewrite Z.pow_add_r by lia. reflexivity.
Qed.

(** A call keeps the distance of the cursor to any base a multiple of 4. *)
Lemma gcMalloc_aligned base size st :
  aligned_from base (bump st) ->
  aligned_from base (bump (snd (gcMalloc ptr_bits size st))).
Proof.
  unfold aligned_from. intros Ha. rewrite gcMalloc_bump.
  rewrite Zminus_mod, (Z.mod_mod_divide _ _ 4 four_divides_modulus).
  rewrite <- Zminus_mod.
  replace (bump st + rounded_size size - base)
    with ((bump st - base) + rounded_size size) by lia.
  rewrite Zplus_mod, Ha, rounded_size_multiple_of_4. reflexivity.
Qed.

End OneCall.

(** ** Sequences of calls *)

Section Calls.
Variable ptr_bits : Z.

Lemma gcMalloc_all_cons size rest st :
  gcMalloc_all ptr_bits (size :: rest) st
  = (bump st :: fst (gcMalloc_all ptr_bits rest (snd (gcMalloc ptr_bits size st))),
     snd (gcMalloc_all ptr_bits rest (snd (gcMalloc ptr_bits size st)))).
Proof.
  simpl.
  destruct (gcMalloc_all ptr_bits rest _) as [addrs st2]. reflexivity.
Qed.

Lemma gcMalloc_all_length sizes st :
  length (fst (gcMalloc_all ptr_bits sizes st)) = length sizes.
Proof.
  revert st. induction sizes as [|size rest IH]; intros st; [reflexivity|].
  rewrite gcMalloc_all_cons. simpl. f_equal. apply IH.
Qed.

Lemma gcMalloc_all_heap sizes st :
  heap (snd (gcMalloc_all ptr_bits sizes st)) = heap st.
Proof.
  revert st. induction sizes as [|size rest IH]; intros st; [reflexivity|].
  rewrite gcMalloc_all_cons. simpl. rewrite IH. reflexivity.
Qed.

Lemma blocks_of_cons size rest st :
  blocks_of ptr_bits (size :: rest) st
  = (bump st, rounded_size size)
      :: blocks_of ptr_bits rest (snd (gcMalloc ptr_bits size st)).
Proof. unfold blocks_of. rewrite gcMalloc_all_cons. reflexivity. Qed.

Lemma blocks_of_addrs sizes st :
  map fst (blocks_of ptr_bits sizes st) = fst (gcMalloc_all ptr_bits sizes st).
Proof.
  revert st. induction sizes as [|size rest IH]; intros st; [reflexivity|].
  rewrite blocks_of_cons, gcMalloc_all_cons. simpl. f_equal. apply IH.
Qed.

Hypothesis ptr_bits_ge : 32 <= ptr_bits.

(** Alignment relative to a base is an invariant of the cursor, whatever
    the sizes. *)
Lemma gcMalloc_all_aligned base sizes st :
  aligned_from base (bump st) ->
  aligned_from base (bump (snd (gcMalloc_all ptr_bits sizes st)))
  /\ Forall (aligned_from base) (fst (gcMalloc_all ptr_bits sizes st)).
Proof.
  revert st. induction sizes as [|size rest IH]; intros st Ha.
  - split; [exact Ha|constructor].
  - rewrite gcMalloc_all_cons. simpl.
    destruct (IH (snd (gcMalloc ptr_bits size st))) as [Hb Hf].
    { apply gcMalloc_aligned; assumption. }
    split; [exact Hb|]. constructor; assumption.
Qed.

End Calls.

(** C1: a call returns the cursor and leaves it advanced, modulo the width
    of [uintptr_t], by [(size + 3) & ~3] computed in [int] (the plain
    [(size + 3) & ~3] when [size + 3] does not overflow); the base is not
    touched.  From a fresh heap at [A] with room for 1024 bytes, requests of
    10, 20 and 1 bytes return [A], [A + 12] and [A + 32]. *)
Theorem gcMalloc_returns_cursor_and_advances
  (ptr_bits : Z) (st : heap_state) (size : Z) :
  fst (gcMalloc ptr_bits size st) = bump st
  /\ heap (snd (gcMalloc ptr_bits size st)) = heap st
  /\ bump (snd (gcMalloc ptr_bits size st))
     = (bump st + Z.land (wrap32 (size + 3)) (Z.lnot 3)) mod 2 ^ ptr_bits
  /\ (in_int32 (size + 3) -> wrap32 (size + 3) = size + 3)
  /\ (forall A, 0 <= A -> A + 1024 <= 2 ^ ptr_bits ->
      gcMalloc_all ptr_bits [10; 20; 1] {| heap := A; bump := A |}
      = ([A + 0; A + 12; A + 32], {| heap := A; bump := A + 36 |})).
Proof.
  split; [reflexivity|]. split; [reflexivity|].
  split; [apply gcMalloc_bump|]. split; [apply wrap32_small|].
  intros A HA Hroom.
  assert (Hstep : forall b size' r,
             rounded_size size' = r -> 0 <= b + r < 2 ^ ptr_bits ->
             gcMalloc ptr_bits size' {| heap := A; bump := b |}
             = (b, {| heap := A; bump := b + r |})).
  { intros b size' r Hr Hb.
    pose proof (gcMalloc_bump_exact ptr_bits size' {| heap := A; bump := b |}) as He.
    rewrite Hr in He. specialize (He Hb).
    unfold gcMalloc in *. simpl in *. rewrite He. reflexivity. }
  unfold gcMalloc_all.
  rewrite (Hstep A 10 12) by (reflexivity || lia).
  rewrite (Hstep (A + 12) 20 20) by (reflexivity || lia).
  rewrite (Hstep (A + 12 + 20) 1 4) by (reflexivity || lia).
  replace (A + 12 + 20 + 4) with (A + 36) by lia.
  replace (A + 12 + 20) with (A + 32) by lia.
  rewrite Z.add_0_r. reflexivity.
Qed.

Lemma gcMalloc_returns_cursor_and_advances_witness :
  in_int32 (10 + 3) /\ 0 <= 4096 /\ 4096 + 1024 <= 2 ^ 32
  /\ wrap32 (10 + 3) = 10 + 3
  /\ gcMalloc_all 32 [10; 20; 1] {| heap := 4096; bump := 4096 |}
     = ([4096 + 0; 4096 + 12; 4096 + 32], {| heap := 4096; bump := 4096 + 36 |}).
Proof.
  assert (Hs : in_int32 (10 + 3)) by range_by_computation.
  assert (HA : 0 <= 4096) by (cbv; discriminate).
  assert (Hroom : 4096 + 1024 <= 2 ^ 32) by (cbv; discriminate).
  pose proof (gcMalloc_returns_cursor_and_advances 32 startup_state 10)
    as (_ & _ & _ & Hw & Hrun).
  exact (conj Hs (conj HA (conj Hroom (conj (Hw Hs) (Hrun 4096 HA Hroom))))).
Defined.

(** C10: the amount a call adds to the cursor is a multiple of 4 for every
    size, so from a state with the cursor at the base any sequence of calls,
    with sizes of any sign, leaves the cursor a multiple of 4 bytes from the
    base, and every returned address is a multiple of 4 bytes from it. *)
Theorem gcMalloc_all_keeps_alignment
  (ptr_bits : Z) (sizes : list Z) (st : heap_state) :
  32 <= ptr_bits ->
  bump st = heap st ->
  (forall size, Z.land (wrap32 (size + 3)) (Z.lnot 3) mod 4 = 0)
  /\ heap (snd (gcMalloc_all ptr_bits sizes st)) = heap st
  /\ (bump (snd (gcMalloc_all ptr_bits sizes st)) - heap st) mod 4 = 0
  /\ Forall (fun addr => (addr - heap st) mod 4 = 0)
       (fst (gcMalloc_all ptr_bits sizes st)).
Proof.
  intros Hw Hinit.
  split; [exact rounded_size_multiple_of_4|].
  split; [apply gcMalloc_all_heap|].
  apply (gcMalloc_all_aligned ptr_bits Hw (heap st) sizes st).
  unfold aligned_from. rewrite Hinit, Z.sub_diag. reflexivity.
Qed.

Lemma gcMalloc_all_keeps_alignment_witness :
  32 <= 64
  /\ (bump (snd (gcMalloc_all 64 [10; 0; -7; 1]
                   {| heap := 4096; bump := 4096 |})) - 4096) mod 4 = 0
  /\ Forall (fun addr => (addr - 4096) mod 4 = 0)
       (fst (gcMalloc_all 64 [10; 0; -7; 1] {| heap := 4096; bump := 4096 |})).
Proof.
  assert (Hw : 32 <= 64) by (cbv; discriminate).
  refine (conj Hw _).
  exact (proj2 (proj2 (gcMalloc_all_keeps_alignment 64 [10; 0; -7; 1]
                         {| heap := 4096; bump := 4096 |} Hw eq_refl))).
Defined.

(** ** Requests that stay inside the reserved block *)

Section WithinCapacity.
Variable ptr_bits : Z.
Hypothesis ptr_bits_ge : 32 <= ptr_bits.

Lemma rounded_size_fits size : positive_request size -> size <= rounded_size size <= size + 3.
Proof.
  unfold positive_request. change INT32_MAX with 2147483647. intros Hs.
  apply rounded_size_exact, int32_bounds. lia.
Qed.

Lemma total_rounded_cons size rest :
  total_rounded (size :: rest) = rounded_size size + total_rounded rest.
Proof. reflexivity. Qed.

Lemma total_rounded_nonneg sizes : Forall positive_request sizes -> 0 <= total_rounded sizes.
Proof.
  induction 1 as [|size rest Hs _ IH]; [reflexivity|].
  rewrite total_rounded_cons. pose proof (rounded_size_fits size Hs). unfold positive_request in Hs. lia.
Qed.

(** The cursor is tracked as the integer [b] it stands for; as long as the
    requests end at or below the top of the address space, every block lies
    between the cursor and the end of the requests, and the blocks follow one
    another. *)
Lemma gcMalloc_all_blocks sizes :
  forall b st,
    0 <= b -> bump st = b mod 2 ^ ptr_bits ->
    b + total_rounded sizes <= 2 ^ ptr_bits ->
    Forall positive_request sizes ->
    Forall (fun blk => b <= fst blk /\ fst blk + snd blk <= b + total_rounded sizes)
      (blocks_of ptr_bits sizes st)
    /\ StronglySorted Z.lt (map fst (blocks_of ptr_bits sizes st))
    /\ ForallOrdPairs disjoint (blocks_of ptr_bits sizes st).
Proof.
  induction sizes as [|size rest IH]; intros b st Hb Hcur Htop Hfits.
  - repeat split; constructor.
  - inversion Hfits as [|? ? Hs Hrest]; subst.
    pose proof (rounded_size_fits size Hs) as Hr.
    pose proof (total_rounded_nonneg rest Hrest) as Hn.
    assert (Hpos : 0 < rounded_size size) by (unfold positive_request in Hs; lia).
    rewrite total_rounded_cons in *.
    assert (Hbump : bump st = b) by (rewrite Hcur; apply Z.mod_small; lia).
    rewrite blocks_of_cons, Hbump.
    destruct (IH (b + rounded_size size) (snd (gcMalloc ptr_bits size st)))
      as (Hin & Hsorted & Hdisj); try assumption; try lia.
    { rewrite gcMalloc_bump, Hbump. reflexivity. }
    split; [|split].
    + constructor; [simpl; lia|].
      revert Hin. apply Forall_impl. intros blk. lia.
    + simpl. constructor; [exact Hsorted|].
      apply Forall_map. revert Hin. apply Forall_impl. intros blk. lia.
    + constructor; [|exact Hdisj].
      revert Hin. apply Forall_impl. intros blk Hblk. left. simpl. lia.
Qed.

End WithinCapacity.

(** C2, as the code has it: from a state with the cursor at the base, for
    positive sizes of at most [INT32_MAX - 3] whose rounded sizes add up to
    no more than the capacity [cap] of a reserved block lying inside the
    address space, the returned addresses are strictly increasing, the
    ranges [[addr, addr + rounded size)] of distinct calls do not overlap
    and stay inside the block, and every address is a multiple of 4 bytes
    from the base. *)
Theorem gcMalloc_all_increasing_disjoint
  (ptr_bits cap : Z) (sizes : list Z) (st : heap_state) :
  32 <= ptr_bits ->
  0 <= heap st < 2 ^ ptr_bits ->
  bump st = heap st ->
  heap st + cap <= 2 ^ ptr_bits ->
  Forall positive_request sizes ->
  total_rounded sizes <= cap ->
  StronglySorted Z.lt (fst (gcMalloc_all ptr_bits sizes st))
  /\ ForallOrdPairs disjoint (blocks_of ptr_bits sizes st)
  /\ Forall (fun blk => heap st <= fst blk /\ fst blk + snd blk <= heap st + cap)
       (blocks_of ptr_bits sizes st)
  /\ Forall (fun addr => (addr - heap st) mod 4 = 0)
       (fst (gcMalloc_all ptr_bits sizes st)).
Proof.
  intros Hw Hbase Hinit Hcap Hsizes Htotal.
  destruct (gcMalloc_all_blocks ptr_bits Hw sizes (heap st) st)
    as (Hin & Hsorted & Hdisj); try assumption; try lia.
  { rewrite Hinit. symmetry. apply Z.mod_small, Hbase. }
  rewrite blocks_of_addrs in Hsorted.
  split; [exact Hsorted|]. split; [exact Hdisj|]. split.
  - revert Hin. apply Forall_impl. intros blk. lia.
  - apply (gcMalloc_all_aligned ptr_bits Hw (heap st) sizes st).
    unfold aligned_from. rewrite Hinit, Z.sub_diag. reflexivity.
Qed.

Lemma gcMalloc_all_increasing_disjoint_witness :
  32 <= 32
  /\ 0 <= 4096 < 2 ^ 32
  /\ 4096 + 1024 <= 2 ^ 32
  /\ Forall positive_request [10; 20; 1]
  /\ total_rounded [10; 20; 1] <= 1024
  /\ StronglySorted Z.lt
       (fst (gcMalloc_all 32 [10; 20; 1] {| heap := 4096; bump := 4096 |}))
  /\ ForallOrdPairs disjoint
       (blocks_of 32 [10; 20; 1] {| heap := 4096; bump := 4096 |}).
Proof.
  assert (Hw : 32 <= 32) by (cbv; discriminate).
  assert (Hbase : 0 <= 4096 < 2 ^ 32) by (cbv; split; [discriminate|reflexivity]).
  assert (Hcap : 4096 + 1024 <= 2 ^ 32) by (cbv; discriminate).
  assert (Hsizes : Forall positive_request [10; 20; 1]).
  { repeat constructor; cbv; discriminate. }
  assert (Htotal : total_rounded [10; 20; 1] <= 1024) by (cbv; discriminate).
  pose proof (gcMalloc_all_increasing_disjoint 32 1024 [10; 20; 1]
                {| heap := 4096; bump := 4096 |}
                Hw Hbase eq_refl Hcap Hsizes Htotal) as (Hsorted & Hdisj & _).
  exact (conj Hw (conj Hbase (conj Hcap (conj Hsizes
          (conj Htotal (conj Hsorted Hdisj)))))).
Defined.

(** C2 as stated fails once the requests run past the reserved block: on a
    32-bit target four positive requests bring the cursor around the address
    space and back to the base, so the addresses are not increasing and the
    fourth block is the start of the first; on a 64-bit target a request of
    [INT32_MAX] bytes rounds to a negative amount and the next address lies
    below the first. *)
Lemma gcMalloc_all_wraps_around :
  Forall (fun size => 0 < size /\ in_int32 size) [2147483644; 2147483644; 8; 4]
  /\ fst (gcMalloc_all 32 [2147483644; 2147483644; 8; 4]
            {| heap := 2147483648; bump := 2147483648 |})
     = [2147483648; 4294967292; 2147483640; 2147483648]
  /\ ~ StronglySorted Z.lt
         (fst (gcMalloc_all 32 [2147483644; 2147483644; 8; 4]
                 {| heap := 2147483648; bump := 2147483648 |}))
  /\ ~ ForallOrdPairs disjoint
         (blocks_of 32 [2147483644; 2147483644; 8; 4]
            {| heap := 2147483648; bump := 2147483648 |})
  /\ Forall (fun size => 0 < size /\ in_int32 size) [2147483647; 4]
  /\ fst (gcMalloc_all 64 [2147483647; 4]
            {| heap := 4294967296; bump := 4294967296 |})
     = [4294967296; 2147483648]
  /\ ~ StronglySorted Z.lt
         (fst (gcMalloc_all 64 [2147483647; 4]
                 {| heap := 4294967296; bump := 4294967296 |})).
Proof.
  split; [repeat constructor; cbv; discriminate|].
  split; [reflexivity|].
  split.
  { intros H. apply StronglySorted_inv in H. destruct H as [_ H].
    apply Forall_inv_tail, Forall_inv_tail, Forall_inv in H.
    cbv in H. discriminate H. }
  split.
  { intros H. inversion H as [|blk rest Hhead _]; subst.
    apply Forall_inv_tail, Forall_inv_tail, Forall_inv in Hhead.
    destruct Hhead as [Hd|Hd]; cbv in Hd; apply Hd; reflexivity. }
  split; [repeat constructor; cbv; discriminate|].
  split; [reflexivity|].
  intros H. apply StronglySorted_inv in H. destruct H as [_ H].
  apply Forall_inv in H. cbv in H. discriminate H.
Qed.

(** C3, as the code has it: a call with [-3 <= size <= INT32_MAX - 3] that
    keeps the cursor inside the address space adds the rounded size to the
    cursor and so leaves it at or above its previous value, and exactly
    there when [-3 <= size <= 0]; a size of [-4] or less is accepted as
    well: it rounds to a negative amount, between [size] and [size + 3],
    and the call moves the cursor down by exactly that amount when the
    cursor is at least that large. *)
Theorem gcMalloc_cursor_monotone (ptr_bits : Z) (st : heap_state) (size : Z) :
  32 <= ptr_bits ->
  0 <= bump st < 2 ^ ptr_bits ->
  in_int32 size ->
  (-3 <= size <= INT32_MAX - 3 ->
   bump st + rounded_size size < 2 ^ ptr_bits ->
   bump (snd (gcMalloc ptr_bits size st)) = bump st + rounded_size size
   /\ bump st <= bump (snd (gcMalloc ptr_bits size st)))
  /\ (-3 <= size <= 0 -> bump (snd (gcMalloc ptr_bits size st)) = bump st)
  /\ (size <= -4 ->
      rounded_size size < 0
      /\ size <= rounded_size size <= size + 3
      /\ (- rounded_size size <= bump st ->
          bump (snd (gcMalloc ptr_bits size st)) = bump st + rounded_size size
          /\ bump (snd (gcMalloc ptr_bits size st)) < bump st)).
Proof.
  intros Hw Hb Hsize. apply -> int32_bounds in Hsize.
  change INT32_MAX with 2147483647.
  assert (Hexact : size <= 2147483644 ->
                   rounded_size size = 4 * ((size + 3) / 4)
                   /\ size <= rounded_size size <= size + 3).
  { intros Hle. apply rounded_size_exact, int32_bounds. lia. }
  split; [|split].
  - intros Hs Hroom. destruct (Hexact (proj2 Hs)) as [Hr Hbounds].
    assert (Hnonneg : 0 <= rounded_size size)
      by (rewrite Hr; Z.div_mod_to_equations; lia).
    rewrite gcMalloc_bump_exact by lia. lia.
  - intros Hs. destruct Hexact as [Hr Hbounds]; [lia|].
    assert (H0 : rounded_size size = 0) by (Z.div_mod_to_equations; lia).
    rewrite gcMalloc_bump_exact; lia.
  - intros Hs. destruct Hexact as [Hr Hbounds]; [lia|].
    assert (Hneg : rounded_size size < 0)
      by (rewrite Hr; Z.div_mod_to_equations; lia).
    split; [exact Hneg|]. split; [exact Hbounds|].
    intros Hroom. rewrite gcMalloc_bump_exact by lia. lia.
Qed.

Lemma gcMalloc_cursor_monotone_witness :
  32 <= 64 /\ 0 <= 4096 < 2 ^ 64
  /\ in_int32 10 /\ -3 <= 10 <= INT32_MAX - 3
  /\ 4096 + rounded_size 10 < 2 ^ 64
  /\ bump (snd (gcMalloc 64 10 {| heap := 4096; bump := 4096 |}))
     = 4096 + rounded_size 10
  /\ 4096 <= bump (snd (gcMalloc 64 10 {| heap := 4096; bump := 4096 |}))
  /\ in_int32 (-100) /\ -100 <= -4
  /\ - rounded_size (-100) <= 4096
  /\ rounded_size (-100) < 0
  /\ bump (snd (gcMalloc 64 (-100) {| heap := 4096; bump := 4096 |}))
     = 4096 + rounded_size (-100)
  /\ bump (snd (gcMalloc 64 (-100) {| heap := 4096; bump := 4096 |})) < 4096.
Proof.
  assert (Hw : 32 <= 64) by (cbv; discriminate).
  assert (Hb : 0 <= 4096 < 2 ^ 64) by (cbv; split; [discriminate|reflexivity]).
  assert (Hsize : in_int32 10) by range_by_computation.
  assert (Hs : -3 <= 10 <= INT32_MAX - 3) by (cbv; split; discriminate).
  assert (Hroom : 4096 + rounded_size 10 < 2 ^ 64) by reflexivity.
  assert (Hsize' : in_int32 (-100)) by range_by_computation.
  assert (Hs' : -100 <= -4) by (cbv; discriminate).
  assert (Hroom' : - rounded_size (-100) <= 4096) by (cbv; discriminate).
  destruct (proj1 (gcMalloc_cursor_monotone 64 {| heap := 4096; bump := 4096 |} 10
                     Hw Hb Hsize) Hs Hroom) as [Hadd Hup].
  destruct (proj2 (proj2 (gcMalloc_cursor_monotone 64
                            {| heap := 4096; bump := 4096 |} (-100)
                            Hw Hb Hsize')) Hs') as (Hneg & _ & Hdown).
  destruct (Hdown Hroom') as [Hsub Hlt].
  exact (conj Hw (conj Hb (conj Hsize (conj Hs (conj Hroom (conj Hadd (conj Hup
          (conj Hsize' (conj Hs' (conj Hroom' (conj Hneg
            (conj Hsub Hlt)))))))))))).
Defined.

(** C3 as stated fails in three ways.  A request of [-4] bytes on a fresh
    heap at 4096 leaves the cursor at 4092, below its previous value and
    below the base, on 32-bit and 64-bit targets alike.  On a 32-bit target
    a request of 4 bytes with the cursor 4 bytes below the top of the
    address space brings the cursor to 0.  On a 64-bit target a request of
    [INT32_MAX] bytes rounds to [- 2 ^ 31] and lowers the cursor by that
    much. *)
Lemma gcMalloc_cursor_can_move_down :
  in_int32 (-4)
  /\ bump (snd (gcMalloc 64 (-4) {| heap := 4096; bump := 4096 |})) = 4092
  /\ bump (snd (gcMalloc 32 (-4) {| heap := 4096; bump := 4096 |})) = 4092
  /\ ~ (bump {| heap := 4096; bump := 4096 |}
        <= bump (snd (gcMalloc 64 (-4) {| heap := 4096; bump := 4096 |})))
  /\ in_int32 4
  /\ bump (snd (gcMalloc 32 4 {| heap := 4096; bump := 4294967292 |})) = 0
  /\ in_int32 2147483647
  /\ rounded_size 2147483647 = -2147483648
  /\ bump (snd (gcMalloc 64 2147483647 {| heap := 4294967296; bump := 4294967296 |}))
     = 2147483648.
Proof.
  split; [range_by_computation|]. split; [reflexivity|]. split; [reflexivity|].
  split; [intros H; cbv in H; apply H; reflexivity|].
  split; [range_by_computation|]. split; [reflexivity|].
  split; [range_by_computation|]. split; reflexivity.
Qed.

(** * Process start *)

(** C8, as the code has it: [main] asks [malloc] for 16 MiB and stores the
    answer in both [heap] and [bump], then returns 0.  It does so whatever
    the answer: when the reservation fails the answer is [NULL], both
    globals are 0 and the run still ends normally. *)
Theorem main_sets_heap_and_bump (ptr_bits : Z) (malloc : Z -> Z) :
  32 <= ptr_bits ->
  0 <= malloc HEAP_BYTES < 2 ^ ptr_bits ->
  HEAP_BYTES = 16777216
  /\ main ptr_bits malloc
     = Exited 0 {| heap := malloc HEAP_BYTES; bump := malloc HEAP_BYTES |}
  /\ main ptr_bits malloc <> Aborted
  /\ (malloc HEAP_BYTES = NULL ->
      main ptr_bits malloc = Exited 0 {| heap := 0; bump := 0 |}).
Proof.
  intros Hw Hp.
  assert (Hmain : main ptr_bits malloc
                  = Exited 0 {| heap := malloc HEAP_BYTES; bump := malloc HEAP_BYTES |}).
  { unfold main, to_uintptr. rewrite IntFacts.unsigned_wrap_small by exact Hp.
    reflexivity. }
  split; [reflexivity|]. split; [exact Hmain|].
  split; [rewrite Hmain; discriminate|].
  intros Hnull. rewrite Hmain, Hnull. reflexivity.
Qed.

Lemma main_sets_heap_and_bump_witness :
  32 <= 32 /\ 0 <= (fun _ : Z => 65536) HEAP_BYTES < 2 ^ 32
  /\ main 32 (fun _ => 65536) = Exited 0 {| heap := 65536; bump := 65536 |}.
Proof.
  assert (Hw : 32 <= 32) by (cbv; discriminate).
  assert (Hp : 0 <= (fun _ : Z => 65536) HEAP_BYTES < 2 ^ 32)
    by (cbv; split; [discriminate|reflexivity]).
  refine (conj Hw (conj Hp _)).
  exact (proj1 (proj2 (main_sets_heap_and_bump 32 (fun _ => 65536) Hw Hp))).
Defined.

(** C8 as stated fails when the reservation cannot be satisfied: with a
    [malloc] that answers [NULL], [main] does not abort; it returns 0 with
    [heap] and [bump] both 0. *)
Lemma main_survives_failed_reservation :
  (fun _ : Z => NULL) HEAP_BYTES = NULL
  /\ main 64 (fun _ => NULL) = Exited 0 {| heap := 0; bump := 0 |}
  /\ main 32 (fun _ => NULL) = Exited 0 {| heap := 0; bump := 0 |}
  /\ main 64 (fun _ => NULL) <> Aborted.
Proof.
  split; [reflexivity|]. split; [reflexivity|]. split; [reflexivity|].
  discriminate.
Qed.

(** * Further properties of the arithmetic unit *)

(** Wrapping depends only on the class modulo [2 ^ 64]. *)
Lemma wrap64_of_congruent (a b : Z) :
  a mod 2 ^ 64 = b mod 2 ^ 64 -> wrap64 a = wrap64 b.
Proof.
  intros Hab. apply (IntFacts.signed_congruent_eq 64); try lia.
  - apply wrap64_range.
  - apply wrap64_range.
  - rewrite !wrap64_congruent. exact Hab.
Qed.

Lemma wrap64_add_l (a b : Z) : wrap64 (wrap64 a + b) = wrap64 (a + b).
Proof.
  apply wrap64_of_congruent.
  rewrite <- Zplus_mod_idemp_l, wrap64_congruent, Zplus_mod_idemp_l. reflexivity.
Qed.

Lemma wrap64_add_r (a b : Z) : wrap64 (a + wrap64 b) = wrap64 (a + b).
Proof. rewrite (Z.add_comm a), wrap64_add_l, Z.add_comm. reflexivity. Qed.

Lemma wrap64_mul_l (a b : Z) : wrap64 (wrap64 a * b) = wrap64 (a * b).
Proof.
  apply wrap64_of_congruent.
  rewrite <- Zmult_mod_idemp_l, wrap64_congruent, Zmult_mod_idemp_l. reflexivity.
Qed.

Lemma wrap64_mul_r (a b : Z) : wrap64 (a * wrap64 b) = wrap64 (a * b).
Proof. rewrite (Z.mul_comm a), wrap64_mul_l, Z.mul_comm. reflexivity. Qed.

(** [lAdd] makes the 64-bit values a commutative group: it is commutative
    and associative, 0 is neutral, [lNeg] gives the inverse (also of
    [INT64_MIN]), and [lSub] is [lAdd] of the negated operand. *)
Theorem lAdd_commutative_group (l r t : Z) :
  in_int64 l ->
  lAdd l r = lAdd r l
  /\ lAdd (lAdd l r) t = lAdd l (lAdd r t)
  /\ lAdd l 0 = l
  /\ lAdd l (lNeg l) = 0
  /\ lSub l r = lAdd l (lNeg r).
Proof.
  intros Hl. unfold lAdd, lNeg, lSub.
  split; [f_equal; lia|].
  split; [rewrite wrap64_add_l, wrap64_add_r; f_equal; lia|].
  split; [rewrite Z.add_0_r; apply wrap64_small, Hl|].
  split; [rewrite wrap64_add_r, Z.add_opp_diag_r; reflexivity|].
  rewrite wrap64_add_r. f_equal.
Qed.

Lemma lAdd_commutative_group_witness :
  in_int64 INT64_MIN
  /\ lAdd INT64_MIN 0 = INT64_MIN
  /\ lAdd INT64_MIN (lNeg INT64_MIN) = 0.
Proof.
  assert (Hl : in_int64 INT64_MIN) by range_by_computation.
  pose proof (lAdd_commutative_group INT64_MIN 1 1 Hl) as (_ & _ & H0 & Hinv & _).
  exact (conj Hl (conj H0 Hinv)).
Defined.

(** [lMul] stores the 64-bit value congruent to the product modulo
    [2 ^ 64], the exact product when that fits; it is commutative, and
    multiplying by [-1] is [lNeg]. *)
Theorem lMul_low_64_bits (l r : Z) :
  in_int64 (lMul l r)
  /\ lMul l r mod 2 ^ 64 = (l * r) mod 2 ^ 64
  /\ (in_int64 (l * r) -> lMul l r = l * r)
  /\ lMul l r = lMul r l
  /\ lMul l (-1) = lNeg l.
Proof.
  unfold lMul, lNeg.
  split; [apply wrap64_range|]. split; [apply wrap64_congruent|].
  split; [apply wrap64_small|].
  split; f_equal; lia.
Qed.

Lemma lMul_low_64_bits_witness :
  in_int64 (3037000499 * 3037000499)
  /\ lMul 3037000499 3037000499 = 3037000499 * 3037000499.
Proof.
  assert (Hp : in_int64 (3037000499 * 3037000499)) by range_by_computation.
  exact (conj Hp (proj1 (proj2 (proj2 (lMul_low_64_bits 3037000499 3037000499))) Hp)).
Defined.

(** With [lAdd], [lMul] makes the 64-bit values a commutative ring, overflow
    included: [lMul] is associative, distributes over [lAdd], has 1 as unit
    and 0 as absorbing element. *)
Theorem lMul_ring_laws (a b c : Z) :
  in_int64 a ->
  lMul (lMul a b) c = lMul a (lMul b c)
  /\ lMul a (lAdd b c) = lAdd (lMul a b) (lMul a c)
  /\ lMul a (lSub b c) = lSub (lMul a b) (lMul a c)
  /\ lMul a 1 = a
  /\ lMul a 0 = 0.
Proof.
  intros Ha. unfold lMul, lAdd, lSub.
  split; [rewrite wrap64_mul_l, wrap64_mul_r; f_equal; lia|].
  split; [rewrite wrap64_mul_r, wrap64_add_l, wrap64_add_r; f_equal; lia|].
  split.
  - rewrite wrap64_mul_r. apply wrap64_of_congruent.
    rewrite Zminus_mod, !wrap64_congruent, <- Zminus_mod. f_equal. lia.
  - split; [rewrite Z.mul_1_r; apply wrap64_small, Ha|].
    rewrite Z.mul_0_r. reflexivity.
Qed.

Lemma lMul_ring_laws_witness :
  in_int64 INT64_MAX
  /\ lMul (lMul INT64_MAX 3) 5 = lMul INT64_MAX (lMul 3 5)
  /\ lMul INT64_MAX (lAdd 3 5) = lAdd (lMul INT64_MAX 3) (lMul INT64_MAX 5).
Proof.
  assert (Ha : in_int64 INT64_MAX) by range_by_computation.
  pose proof (lMul_ring_laws INT64_MAX 3 5 Ha) as (Hassoc & Hdist & _).
  exact (conj Ha (conj Hassoc Hdist)).
Defined.

(** A left shift is a multiplication by the shifted 1: [lShl l s] is
    [lMul l (lShl 1 s)] for every count, the count 63 (where [lShl 1 s] is
    [INT64_MIN]) included. *)
Theorem lShl_is_lMul_by_power (l s : Z) :
  lShl l s = lMul l (lShl 1 s)
  /\ lShl 1 s mod 2 ^ 64 = 2 ^ (s mod 64).
Proof.
  pose proof (shift_count_range s) as Hr.
  unfold lShl, lMul. rewrite !Z.shiftl_mul_pow2 by lia.
  rewrite wrap64_mul_r, Z.mul_1_l. split; [reflexivity|].
  rewrite wrap64_congruent, shift_count_mod. apply Z.mod_small.
  rewrite shift_count_mod in Hr.
  split; [apply Z.pow_nonneg; lia|apply Z.pow_lt_mono_r; lia].
Qed.

(** [lCmp] is the sign of the exact difference and is antisymmetric.  It
    agrees with the sign of the wrapped difference [lSub l r] when [l - r]
    fits in 64 bits, and is its opposite when the subtraction overflows. *)
Theorem lCmp_sign_of_difference (l r : Z) :
  in_int64 l -> in_int64 r ->
  lCmp l r = Z.sgn (l - r)
  /\ lCmp r l = - lCmp l r
  /\ (in_int64 (l - r) -> lCmp l r = Z.sgn (lSub l r))
  /\ (~ in_int64 (l - r) -> lCmp l r = - Z.sgn (lSub l r)).
Proof.
  intros Hl Hr.
  assert (Hsgn : forall a b, lCmp a b = Z.sgn (a - b)).
  { intros a b. unfold lCmp.
    destruct (Z.gtb_spec a b); [|destruct (Z.ltb_spec a b)];
      destruct (Z.sgn_spec (a - b)) as [[? ->]|[[? ->]|[? ->]]]; lia. }
  split; [apply Hsgn|].
  split; [rewrite !Hsgn, <- Z.sgn_opp; f_equal; lia|].
  split.
  - intros Hfit. unfold lSub. rewrite wrap64_small by exact Hfit. apply Hsgn.
  - intros Hover. rewrite Hsgn.
    apply -> int64_bounds in Hl. apply -> int64_bounds in Hr.
    rewrite int64_bounds in Hover.
    unfold lSub, wrap64, Int.signed_wrap.
    change (2 ^ (64 - 1)) with 9223372036854775808.
    change (2 ^ 64) with 18446744073709551616.
    destruct (Z.le_gt_cases 0 (l - r)) as [Hpos|Hneg].
    + replace ((l - r + 9223372036854775808) mod 18446744073709551616)
        with (l - r - 9223372036854775808).
      2:{ apply Z.mod_unique_pos with (q := 1); lia. }
      rewrite (Z.sgn_pos (l - r)) by lia. rewrite Z.sgn_neg by lia. reflexivity.
    + replace ((l - r + 9223372036854775808) mod 18446744073709551616)
        with (l - r + 9223372036854775808 + 18446744073709551616).
      2:{ apply Z.mod_unique_pos with (q := -1); lia. }
      rewrite (Z.sgn_neg (l - r)) by lia. rewrite Z.sgn_pos by lia. reflexivity.
Qed.

Lemma lCmp_sign_of_difference_witness :
  in_int64 INT64_MAX /\ in_int64 INT64_MIN
  /\ ~ in_int64 (INT64_MAX - INT64_MIN)
  /\ lCmp INT64_MAX INT64_MIN = - Z.sgn (lSub INT64_MAX INT64_MIN).
Proof.
  assert (Hl : in_int64 INT64_MAX) by range_by_computation.
  assert (Hr : in_int64 INT64_MIN) by range_by_computation.
  assert (Hover : ~ in_int64 (INT64_MAX - INT64_MIN)).
  { intros H. apply -> int64_bounds in H. destruct H as [_ H].
    cbv in H. apply H. reflexivity. }
  pose proof (lCmp_sign_of_difference INT64_MAX INT64_MIN Hl Hr) as (_ & _ & _ & H).
  exact (conj Hl (conj Hr (conj Hover (H Hover)))).
Defined.

(** ** The right shifts *)

Lemma pow2_split (n : Z) : 0 <= n <= 64 -> 2 ^ 64 = 2 ^ (64 - n) * 2 ^ n.
Proof. intros Hn. rewrite <- Z.pow_add_r by lia. f_equal. lia. Qed.

Lemma pow2_pos (n : Z) : 0 <= n -> 0 < 2 ^ n.
Proof. intros Hn. apply Z.pow_pos_nonneg; lia. Qed.

Lemma pow2_le_2_63 (n : Z) : 0 <= n <= 63 -> 2 ^ n <= 9223372036854775808.
Proof.
  intros Hn. change 9223372036854775808 with (2 ^ 63).
  apply Z.pow_le_mono_r; lia.
Qed.

(** [lShr] is the arithmetic shift: it divides by [2 ^ (s mod 64)] rounding
    toward minus infinity, so the result is a 64-bit value of the sign of
    [l] (a negative operand never becomes non-negative), and bit [i] of the
    result is bit [i + s mod 64] of [l]. *)
Theorem lShr_floor_division (l s : Z) :
  in_int64 l ->
  lShr l s = l / 2 ^ (s mod 64)
  /\ in_int64 (lShr l s)
  /\ (lShr l s < 0 <-> l < 0)
  /\ (forall i, 0 <= i -> Z.testbit (lShr l s) i = Z.testbit l (i + s mod 64)).
Proof.
  intros Hl. pose proof (shift_count_range s) as Hr.
  unfold lShr. rewrite <- shift_count_mod.
  split; [apply Z.shiftr_div_pow2; lia|].
  split.
  - rewrite Z.shiftr_div_pow2 by lia.
    apply int64_bounds. apply -> int64_bounds in Hl.
    pose proof (pow2_pos (shift_count s) (proj1 Hr)) as Hp.
    split.
    + apply Z.div_le_lower_bound; [exact Hp|]. nia.
    + apply Z.lt_succ_r, Z.div_lt_upper_bound; [exact Hp|]. nia.
  - split; [apply Z.shiftr_neg|].
    intros i Hi. apply Z.shiftr_spec, Hi.
Qed.

Lemma lShr_floor_division_witness :
  in_int64 (-7)
  /\ lShr (-7) 1 = -7 / 2 ^ (1 mod 64)
  /\ in_int64 (lShr (-7) 1).
Proof.
  assert (Hl : in_int64 (-7)) by range_by_computation.
  pose proof (lShr_floor_division (-7) 1 Hl) as (Hdiv & Hrange & _).
  exact (conj Hl (conj Hdiv Hrange)).
Defined.

Lemma lUshr_value (l s : Z) :
  0 < s mod 64 ->
  lUshr l s = (l mod 2 ^ 64) / 2 ^ (s mod 64)
  /\ 0 <= lUshr l s < 2 ^ (64 - s mod 64).
Proof.
  intros Hn. pose proof (shift_count_range s) as Hr.
  unfold lUshr, Int.unsigned_wrap. rewrite Z.shiftr_div_pow2 by lia.
  rewrite shift_count_mod in *.
  pose proof (pow2_pos (s mod 64) (proj1 Hr)) as Hp.
  pose proof (Z.mod_pos_bound l (2 ^ 64) (pow2_pos 64 ltac:(lia))) as Hu.
  assert (Hq : 0 <= (l mod 2 ^ 64) / 2 ^ (s mod 64) < 2 ^ (64 - s mod 64)).
  { split; [apply Z.div_pos; lia|].
    apply Z.div_lt_upper_bound; [exact Hp|].
    rewrite Z.mul_comm, <- pow2_split by lia. lia. }
  assert (Hle : 2 ^ (64 - s mod 64) <= 9223372036854775808)
    by (apply pow2_le_2_63; lia).
  rewrite wrap64_small by (apply int64_bounds; lia).
  split; [reflexivity|exact Hq].
Qed.

Lemma lUshr_testbit (l s i : Z) :
  0 <= i < 64 ->
  Z.testbit (lUshr l s) i
  = if i + s mod 64 <? 64 then Z.testbit l (i + s mod 64) else false.
Proof.
  intros Hi. pose proof (shift_count_range s) as Hr.
  unfold lUshr, Int.unsigned_wrap.
  rewrite wrap64_testbit by exact Hi. rewrite Z.shiftr_spec by lia.
  rewrite shift_count_mod in *.
  destruct (Z.ltb_spec (i + s mod 64) 64) as [Hlt|Hge].
  - apply Z.mod_pow2_bits_low. lia.
  - apply Z.mod_pow2_bits_high. lia.
Qed.

Lemma lShl_testbit (l s i : Z) :
  0 <= i < 64 ->
  Z.testbit (lShl l s) i = Z.testbit l (i - s mod 64).
Proof.
  intros Hi. unfold lShl.
  rewrite wrap64_testbit by exact Hi. rewrite Z.shiftl_spec by lia.
  rewrite shift_count_mod. reflexivity.
Qed.

(** [lUshr] is the logical shift: with a count [s mod 64] above 0 it stores
    the unsigned reading of [l] divided by [2 ^ (s mod 64)], a non-negative
    value below [2 ^ (64 - s mod 64)]; with a count of 0 it stores [l]
    itself.  Bit [i] of the result is bit [i + s mod 64] of [l], and the
    vacated high bits are 0. *)
Theorem lUshr_logical_shift (l s : Z) :
  in_int64 l ->
  (0 < s mod 64 ->
   lUshr l s = (l mod 2 ^ 64) / 2 ^ (s mod 64)
   /\ 0 <= lUshr l s < 2 ^ (64 - s mod 64))
  /\ (s mod 64 = 0 -> lUshr l s = l)
  /\ (forall i, 0 <= i < 64 ->
        Z.testbit (lUshr l s) i
        = if i + s mod 64 <? 64 then Z.testbit l (i + s mod 64) else false).
Proof.
  intros Hl.
  split; [apply lUshr_value|].
  split; [|intros i; apply lUshr_testbit].
  intros H0. unfold lUshr, Int.unsigned_wrap.
  rewrite shift_count_mod, H0, Z.shiftr_0_r.
  rewrite <- (wrap64_small l Hl) at 2.
  apply wrap64_of_congruent, Z.mod_mod. lia.
Qed.

Lemma lUshr_logical_shift_witness :
  in_int64 (-1) /\ 0 < 60 mod 64
  /\ lUshr (-1) 60 = ((-1) mod 2 ^ 64) / 2 ^ (60 mod 64)
  /\ 0 <= lUshr (-1) 60 < 2 ^ (64 - 60 mod 64).
Proof.
  assert (Hl : in_int64 (-1)) by range_by_computation.
  assert (Hn : 0 < 60 mod 64) by reflexivity.
  exact (conj Hl (conj Hn (proj1 (lUshr_logical_shift (-1) 60 Hl) Hn))).
Defined.

(** The two right shifts agree on a non-negative operand; on a negative
    operand, with a count above 0, the logical shift is the arithmetic one
    plus [2 ^ (64 - s mod 64)]: the sign bits shifted in read as zeros. *)
Theorem lUshr_versus_lShr (l s : Z) :
  in_int64 l ->
  (0 <= l -> lUshr l s = lShr l s)
  /\ (l < 0 -> 0 < s mod 64 -> lUshr l s = lShr l s + 2 ^ (64 - s mod 64)).
Proof.
  intros Hl. pose proof (shift_count_range s) as Hr.
  rewrite shift_count_mod in Hr.
  pose proof (pow2_pos (s mod 64) (proj1 Hr)) as Hp.
  apply -> int64_bounds in Hl.
  assert (Hshr : lShr l s = l / 2 ^ (s mod 64)).
  { unfold lShr. rewrite shift_count_mod. apply Z.shiftr_div_pow2. lia. }
  split.
  - intros Hpos.
    assert (Hu : l mod 2 ^ 64 = l).
    { apply Z.mod_small. change (2 ^ 64) with 18446744073709551616. lia. }
    unfold lUshr, Int.unsigned_wrap.
    rewrite Hu, Hshr, shift_count_mod, Z.shiftr_div_pow2 by lia.
    apply wrap64_small, int64_bounds.
    pose proof (Z.div_pos l _ Hpos Hp) as Hq.
    split; [lia|].
    apply Z.lt_succ_r, Z.div_lt_upper_bound; [exact Hp|]. nia.
  - intros Hneg Hn.
    destruct (lUshr_value l s Hn) as [Hv _]. rewrite Hv, Hshr.
    assert (Hu : l mod 2 ^ 64 = l + 2 ^ (64 - s mod 64) * 2 ^ (s mod 64)).
    { rewrite <- pow2_split by lia.
      symmetry. apply Z.mod_unique_pos with (q := -1);
        change (2 ^ 64) with 18446744073709551616; lia. }
    rewrite Hu. apply Z.div_add. lia.
Qed.

Lemma lUshr_versus_lShr_witness :
  in_int64 (-8) /\ -8 < 0 /\ 0 < 1 mod 64
  /\ lUshr (-8) 1 = lShr (-8) 1 + 2 ^ (64 - 1 mod 64).
Proof.
  assert (Hl : in_int64 (-8)) by range_by_computation.
  assert (Hneg : -8 < 0) by reflexivity.
  assert (Hn : 0 < 1 mod 64) by reflexivity.
  exact (conj Hl (conj Hneg (conj Hn
           (proj2 (lUshr_versus_lShr (-8) 1 Hl) Hneg Hn)))).
Defined.

(** ** Shifting left, then right *)

Lemma lShl_congruent (l s : Z) :
  lShl l s mod 2 ^ 64 = (l * 2 ^ (s mod 64)) mod 2 ^ 64.
Proof.
  pose proof (shift_count_range s) as Hr.
  unfold lShl. rewrite wrap64_congruent, Z.shiftl_mul_pow2 by lia.
  rewrite shift_count_mod. reflexivity.
Qed.

(** [lShl] scales the signed reading of the low [64 - s mod 64] bits. *)
Lemma lShl_signed_low_bits (l s : Z) :
  lShl l s = Int.signed_wrap (64 - s mod 64) l * 2 ^ (s mod 64).
Proof.
  pose proof (shift_count_range s) as Hr. rewrite shift_count_mod in Hr.
  pose proof (pow2_pos (s mod 64) (proj1 Hr)) as Hp.
  unfold lShl, wrap64, Int.signed_wrap.
  rewrite shift_count_mod, Z.shiftl_mul_pow2 by lia.
  assert (Hhalf : 2 ^ (64 - 1) = 2 ^ (64 - s mod 64 - 1) * 2 ^ (s mod 64)).
  { rewrite <- Z.pow_add_r by lia. f_equal. lia. }
  rewrite Hhalf, (pow2_split (s mod 64)) by lia.
  rewrite <- Z.mul_add_distr_r, Zmult_mod_distr_r. lia.
Qed.

(** Shifting left then logically right by the same count keeps the low
    [64 - s mod 64] bits of [l] and clears the bits above them; for a count
    above 0 the value is [l mod 2 ^ (64 - s mod 64)], and for a count of 0
    it is [l] itself. *)
Theorem lShl_lUshr_round_trip (l s : Z) :
  in_int64 l ->
  (forall i, 0 <= i < 64 ->
     Z.testbit (lUshr (lShl l s) s) i
     = if i <? 64 - s mod 64 then Z.testbit l i else false)
  /\ (0 < s mod 64 -> lUshr (lShl l s) s = l mod 2 ^ (64 - s mod 64))
  /\ (s mod 64 = 0 -> lUshr (lShl l s) s = l).
Proof.
  intros Hl. pose proof (shift_count_range s) as Hr.
  rewrite shift_count_mod in Hr.
  pose proof (pow2_pos (s mod 64) (proj1 Hr)) as Hp.
  split; [|split].
  - intros i Hi. rewrite lUshr_testbit by exact Hi.
    destruct (Z.ltb_spec (i + s mod 64) 64) as [Hlt|Hge],
             (Z.ltb_spec i (64 - s mod 64)) as [Hlt'|Hge'];
      try lia; try reflexivity.
    rewrite lShl_testbit by lia. f_equal. lia.
  - intros Hn. destruct (lUshr_value (lShl l s) s Hn) as [Hv _].
    rewrite Hv, lShl_congruent, (pow2_split (s mod 64)) by lia.
    rewrite Zmult_mod_distr_r. apply Z.div_mul. lia.
  - intros H0. unfold lUshr, lShl, Int.unsigned_wrap.
    rewrite shift_count_mod, H0, Z.shiftr_0_r, Z.shiftl_0_r.
    rewrite (wrap64_small l Hl). rewrite <- (wrap64_small l Hl) at 2.
    apply wrap64_of_congruent, Z.mod_mod. lia.
Qed.

Lemma lShl_lUshr_round_trip_witness :
  in_int64 (-1) /\ 0 < 60 mod 64
  /\ lUshr (lShl (-1) 60) 60 = (-1) mod 2 ^ (64 - 60 mod 64).
Proof.
  assert (Hl : in_int64 (-1)) by range_by_computation.
  assert (Hn : 0 < 60 mod 64) by reflexivity.
  exact (conj Hl (conj Hn
           (proj1 (proj2 (lShl_lUshr_round_trip (-1) 60 Hl)) Hn))).
Defined.

(** Shifting left then arithmetically right by the same count sign-extends
    the low [64 - s mod 64] bits of [l]: an operand that fits in that many
    bits as a signed value comes back unchanged. *)
Theorem lShl_lShr_round_trip (l s : Z) :
  lShr (lShl l s) s = Int.signed_wrap (64 - s mod 64) l
  /\ (Int.in_signed (64 - s mod 64) l -> lShr (lShl l s) s = l).
Proof.
  pose proof (shift_count_range s) as Hr. rewrite shift_count_mod in Hr.
  pose proof (pow2_pos (s mod 64) (proj1 Hr)) as Hp.
  assert (Hgen : lShr (lShl l s) s = Int.signed_wrap (64 - s mod 64) l).
  { unfold lShr. rewrite shift_count_mod, Z.shiftr_div_pow2 by lia.
    rewrite lShl_signed_low_bits. apply Z.div_mul. lia. }
  split; [exact Hgen|].
  intros Hfit. rewrite Hgen. apply IntFacts.signed_wrap_small; [lia|exact Hfit].
Qed.

Lemma lShl_lShr_round_trip_witness :
  Int.in_signed (64 - 56 mod 64) (-128)
  /\ lShr (lShl (-128) 56) 56 = -128.
Proof.
  assert (Hfit : Int.in_signed (64 - 56 mod 64) (-128)) by (cbv; split; discriminate).
  exact (conj Hfit (proj2 (lShl_lShr_round_trip (-128) 56) Hfit)).
Defined.

(** ** Division and remainder together *)

Lemma rem_in_int64 (l r : Z) : in_int64 r -> r <> 0 -> in_int64 (Z.rem l r).
Proof.
  intros Hr Hnz. pose proof (Z.rem_bound_abs l r Hnz) as Hb.
  apply int64_bounds. apply -> int64_bounds in Hr. lia.
Qed.

Lemma lDiv_some (l r q : Z) :
  lDiv l r = Some q -> r <> 0 /\ ~ (l = INT64_MIN /\ r = -1) /\ q = Z.quot l r.
Proof.
  intros Hq.
  assert (Hn : lDiv l r <> None) by (rewrite Hq; discriminate).
  rewrite lDiv_traps in Hn.
  assert (Hr : r <> 0) by tauto.
  assert (Hov : ~ (l = INT64_MIN /\ r = -1)) by tauto.
  rewrite (lDiv_defined l r Hr Hov) in Hq. inversion Hq. tauto.
Qed.

Lemma lRem_some (l r m : Z) :
  lRem l r = Some m -> r <> 0 /\ ~ (l = INT64_MIN /\ r = -1) /\ m = Z.rem l r.
Proof.
  intros Hm.
  assert (Hn : lRem l r <> None) by (rewrite Hm; discriminate).
  rewrite lRem_traps in Hn.
  assert (Hr : r <> 0) by tauto.
  assert (Hov : ~ (l = INT64_MIN /\ r = -1)) by tauto.
  rewrite (lRem_defined l r Hr Hov) in Hm. inversion Hm. tauto.
Qed.

(** [lDiv] and [lRem] trap on the same operands, and where they do not the
    stored quotient [q] and remainder [m] recompose the dividend with the
    unit's own operations: [lAdd (lMul q r) m] is [l], and
    [lSub l (lMul q r)] is [m]. *)
Theorem lDiv_lRem_recompose (l r : Z) :
  in_int64 l -> in_int64 r ->
  (lDiv l r = None <-> lRem l r = None)
  /\ (forall q m,
        lDiv l r = Some q -> lRem l r = Some m ->
        lAdd (lMul q r) m = l /\ lSub l (lMul q r) = m).
Proof.
  intros Hl Hr.
  split; [rewrite lDiv_traps, lRem_traps; reflexivity|].
  intros q m Hq Hm.
  apply lDiv_some in Hq. destruct Hq as (Hnz & _ & ->).
  apply lRem_some in Hm. destruct Hm as (_ & _ & ->).
  pose proof (Z.quot_rem' l r) as Heq.
  unfold lAdd, lSub, lMul. split.
  - rewrite wrap64_add_l.
    replace (Z.quot l r * r + Z.rem l r) with l by lia.
    apply wrap64_small, Hl.
  - rewrite <- (wrap64_small (Z.rem l r)) by (apply rem_in_int64; assumption).
    apply wrap64_of_congruent.
    rewrite Zminus_mod, wrap64_congruent, <- Zminus_mod. f_equal. lia.
Qed.

Lemma lDiv_lRem_recompose_witness :
  in_int64 INT64_MIN /\ in_int64 3
  /\ lDiv INT64_MIN 3 = Some (-3074457345618258602)
  /\ lRem INT64_MIN 3 = Some (-2)
  /\ lAdd (lMul (-3074457345618258602) 3) (-2) = INT64_MIN
  /\ lSub INT64_MIN (lMul (-3074457345618258602) 3) = -2.
Proof.
  assert (Hl : in_int64 INT64_MIN) by range_by_computation.
  assert (Hr : in_int64 3) by range_by_computation.
  assert (Hq : lDiv INT64_MIN 3 = Some (-3074457345618258602)) by reflexivity.
  assert (Hm : lRem INT64_MIN 3 = Some (-2)) by reflexivity.
  exact (conj Hl (conj Hr (conj Hq (conj Hm
           (proj2 (lDiv_lRem_recompose INT64_MIN 3 Hl Hr) _ _ Hq Hm))))).
Defined.

(** Truncation is symmetric about zero.  For [l] and [r] other than
    [INT64_MIN] and [r] other than 0, negating the dividend negates both the
    quotient and the remainder, and negating the divisor negates the
    quotient and leaves the remainder alone. *)
Theorem lDiv_lRem_negated_operands (l r : Z) :
  in_int64 l -> in_int64 r ->
  l <> INT64_MIN -> r <> INT64_MIN -> r <> 0 ->
  exists q m,
    lDiv l r = Some q /\ lRem l r = Some m
    /\ lDiv (lNeg l) r = Some (lNeg q) /\ lRem (lNeg l) r = Some (lNeg m)
    /\ lDiv l (lNeg r) = Some (lNeg q) /\ lRem l (lNeg r) = Some m.
Proof.
  intros Hl Hr Hlmin Hrmin Hnz.
  change INT64_MIN with (-9223372036854775808) in Hlmin, Hrmin.
  assert (Hopp : forall x, in_int64 x -> x <> -9223372036854775808 ->
                           lNeg x = - x /\ in_int64 (- x)
                           /\ - x <> -9223372036854775808).
  { intros x Hx Hxmin. apply -> int64_bounds in Hx.
    assert (Hnx : in_int64 (- x)) by (apply int64_bounds; lia).
    unfold lNeg. rewrite wrap64_small by exact Hnx.
    split; [reflexivity|split; [exact Hnx|lia]]. }
  destruct (Hopp l Hl Hlmin) as (Hnl & Hnl_range & Hnl_min).
  destruct (Hopp r Hr Hrmin) as (Hnr & Hnr_range & Hnr_min).
  assert (Hnotrap : forall a b, a <> -9223372036854775808 ->
                                ~ (a = INT64_MIN /\ b = -1)).
  { intros a b Ha [Hmin _]. apply Ha. exact Hmin. }
  assert (Hq : in_int64 (Z.quot l r))
    by (apply quot_in_int64; auto).
  assert (Hnq : in_int64 (Z.quot (- l) r))
    by (apply quot_in_int64; auto).
  rewrite Z.quot_opp_l in Hnq by exact Hnz.
  assert (Hm : in_int64 (Z.rem (- l) r)) by (apply rem_in_int64; assumption).
  rewrite Z.rem_opp_l in Hm by exact Hnz.
  exists (Z.quot l r), (Z.rem l r).
  rewrite Hnl, Hnr.
  rewrite !lDiv_defined, !lRem_defined by (auto; lia).
  rewrite Z.quot_opp_l, Z.rem_opp_l, Z.quot_opp_r, Z.rem_opp_r by exact Hnz.
  unfold lNeg. rewrite !wrap64_small by assumption.
  repeat split; reflexivity.
Qed.

Lemma lDiv_lRem_negated_operands_witness :
  in_int64 7 /\ in_int64 2
  /\ 7 <> INT64_MIN /\ 2 <> INT64_MIN /\ 2 <> 0
  /\ exists q m,
       lDiv 7 2 = Some q /\ lRem 7 2 = Some m
       /\ lDiv (lNeg 7) 2 = Some (lNeg q) /\ lRem (lNeg 7) 2 = Some (lNeg m)
       /\ lDiv 7 (lNeg 2) = Some (lNeg q) /\ lRem 7 (lNeg 2) = Some m.
Proof.
  assert (Hl : in_int64 7) by range_by_computation.
  assert (Hr : in_int64 2) by range_by_computation.
  assert (Hlmin : 7 <> INT64_MIN) by discriminate.
  assert (Hrmin : 2 <> INT64_MIN) by discriminate.
  assert (Hnz : 2 <> 0) by discriminate.
  exact (conj Hl (conj Hr (conj Hlmin (conj Hrmin (conj Hnz
           (lDiv_lRem_negated_operands 7 2 Hl Hr Hlmin Hrmin Hnz)))))).
Defined.

(** Dividing by a power of two is not shifting.  For a count of at most 62,
    [lDiv] by [lShl 1 s] does not trap; on a non-negative dividend it gives
    what [lShr] gives, and on a negative one it gives one more than [lShr]
    unless the dividend is a multiple of the power. *)
Theorem lDiv_by_power_versus_lShr (l s : Z) :
  in_int64 l -> s mod 64 <= 62 ->
  exists q,
    lDiv l (lShl 1 s) = Some q
    /\ (0 <= l -> q = lShr l s)
    /\ (l < 0 -> l mod 2 ^ (s mod 64) = 0 -> q = lShr l s)
    /\ (l < 0 -> l mod 2 ^ (s mod 64) <> 0 -> q = lShr l s + 1).
Proof.
  intros Hl Hn. pose proof (shift_count_range s) as Hr.
  rewrite shift_count_mod in Hr.
  pose proof (pow2_pos (s mod 64) (proj1 Hr)) as Hp.
  assert (Hpow : lShl 1 s = 2 ^ (s mod 64)).
  { unfold lShl. rewrite shift_count_mod, Z.shiftl_mul_pow2, Z.mul_1_l by lia.
    apply wrap64_small, int64_bounds.
    assert (2 ^ (s mod 64) <= 2 ^ 62) by (apply Z.pow_le_mono_r; lia).
    change (2 ^ 62) with 4611686018427387904 in *. lia. }
  assert (Hshr : lShr l s = l / 2 ^ (s mod 64)).
  { unfold lShr. rewrite shift_count_mod. apply Z.shiftr_div_pow2. lia. }
  rewrite Hpow, Hshr.
  exists (Z.quot l (2 ^ (s mod 64))).
  split.
  { apply lDiv_defined; [lia|]. intros [_ H]. lia. }
  revert Hp. generalize (2 ^ (s mod 64)). intros p Hp.
  pose proof (Z.quot_rem' l p) as Hqr.
  pose proof (Z.rem_bound_abs l p ltac:(lia)) as Hrb.
  assert (Hrs : Z.rem l p = 0 \/ Z.sgn (Z.rem l p) = Z.sgn l).
  { destruct (Z.eq_dec (Z.rem l p) 0) as [H0|Hne]; [left; exact H0|right].
    apply Z.rem_sign_nz; [lia|exact Hne]. }
  pose proof (Z.div_mod l p ltac:(lia)) as Hdm.
  pose proof (Z.mod_pos_bound l p Hp) as Hmb.
  revert Hqr Hrb Hrs Hdm Hmb.
  generalize (Z.quot l p) (Z.rem l p) (l / p) (l mod p).
  intros q m d e Hqr Hrb Hrs Hdm Hmb.
  assert (Hsl : l < 0 -> Z.sgn l = -1) by (intros; apply Z.sgn_neg; lia).
  assert (Hsp : 0 < l -> Z.sgn l = 1) by (intros; apply Z.sgn_pos; lia).
  assert (Hsm : m < 0 -> Z.sgn m = -1) by (intros; apply Z.sgn_neg; lia).
  assert (Hsmp : 0 < m -> Z.sgn m = 1) by (intros; apply Z.sgn_pos; lia).
  repeat split; intros; nia.
Qed.

Lemma lDiv_by_power_versus_lShr_witness :
  in_int64 (-7) /\ 1 mod 64 <= 62
  /\ exists q,
       lDiv (-7) (lShl 1 1) = Some q
       /\ (0 <= -7 -> q = lShr (-7) 1)
       /\ (-7 < 0 -> (-7) mod 2 ^ (1 mod 64) = 0 -> q = lShr (-7) 1)
       /\ (-7 < 0 -> (-7) mod 2 ^ (1 mod 64) <> 0 -> q = lShr (-7) 1 + 1).
Proof.
  assert (Hl : in_int64 (-7)) by range_by_computation.
  assert (Hn : 1 mod 64 <= 62) by (cbv; discriminate).
  exact (conj Hl (conj Hn (lDiv_by_power_versus_lShr (-7) 1 Hl Hn))).
Defined.

(** * Further properties of the allocator *)

From Stdlib Require Import Permutation.

(** The amount reserved for a request of [-3 <= size <= INT32_MAX - 3] is
    the least multiple of 4 that holds [size] bytes: at most 3 bytes are
    lost to rounding, and none when [size] is itself a multiple of 4. *)
Theorem rounded_size_least_multiple (size : Z) :
  -3 <= size <= INT32_MAX - 3 ->
  size <= rounded_size size <= size + 3
  /\ rounded_size size mod 4 = 0
  /\ (forall m, m mod 4 = 0 -> size <= m -> rounded_size size <= m)
  /\ (size mod 4 = 0 -> rounded_size size = size).
Proof.
  change INT32_MAX with 2147483647. intros Hs.
  destruct (rounded_size_exact size) as [Hr Hb]; [apply int32_bounds; lia|].
  split; [exact Hb|]. split; [apply rounded_size_multiple_of_4|].
  rewrite Hr. split.
  - intros m Hm Hle. Z.div_mod_to_equations. lia.
  - intros Hm. Z.div_mod_to_equations. lia.
Qed.

Lemma rounded_size_least_multiple_witness :
  -3 <= 10 <= INT32_MAX - 3
  /\ 10 <= rounded_size 10 <= 10 + 3
  /\ rounded_size 10 mod 4 = 0.
Proof.
  assert (Hs : -3 <= 10 <= INT32_MAX - 3) by (cbv; split; discriminate).
  pose proof (rounded_size_least_multiple 10 Hs) as (Hb & Hm & _).
  exact (conj Hs (conj Hb Hm)).
Defined.

Lemma heap_state_eq (a b : heap_state) :
  heap a = heap b -> bump a = bump b -> a = b.
Proof. destruct a, b. simpl. intros -> ->. reflexivity. Qed.

Lemma total_rounded_app (xs ys : list Z) :
  total_rounded (xs ++ ys) = total_rounded xs + total_rounded ys.
Proof.
  induction xs as [|x xs IH]; [reflexivity|].
  simpl. rewrite !total_rounded_cons, IH. lia.
Qed.

Lemma total_rounded_permutation (xs ys : list Z) :
  Permutation xs ys -> total_rounded xs = total_rounded ys.
Proof.
  induction 1 as [|x xs ys _ IH|x y xs|xs ys zs _ IH1 _ IH2].
  - reflexivity.
  - rewrite !total_rounded_cons, IH. reflexivity.
  - rewrite !total_rounded_cons. lia.
  - rewrite IH1. exact IH2.
Qed.

Section Accounting.
Variable ptr_bits : Z.

(** The cursor after a run of calls, from a cursor that is a [uintptr_t]
    value. *)
Lemma gcMalloc_all_bump sizes :
  forall st,
    bump st mod 2 ^ ptr_bits = bump st ->
    bump (snd (gcMalloc_all ptr_bits sizes st))
    = (bump st + total_rounded sizes) mod 2 ^ ptr_bits.
Proof.
  induction sizes as [|size rest IH]; intros st Hst.
  - simpl. unfold total_rounded. simpl. rewrite Z.add_0_r. symmetry. exact Hst.
  - rewrite gcMalloc_all_cons. cbn [snd].
    rewrite IH by (rewrite gcMalloc_bump; apply Zmod_mod).
    rewrite gcMalloc_bump, Zplus_mod_idemp_l, total_rounded_cons.
    f_equal. lia.
Qed.

(** The address a call returns: the cursor advanced by the rounded sizes of
    the calls before it. *)
Lemma gcMalloc_all_nth sizes :
  forall st k,
    bump st mod 2 ^ ptr_bits = bump st ->
    (k < length sizes)%nat ->
    nth k (fst (gcMalloc_all ptr_bits sizes st)) 0
    = (bump st + total_rounded (firstn k sizes)) mod 2 ^ ptr_bits.
Proof.
  induction sizes as [|size rest IH]; intros st k Hst Hk; [inversion Hk|].
  rewrite gcMalloc_all_cons. destruct k as [|k].
  - simpl. unfold total_rounded. simpl. rewrite Z.add_0_r. symmetry. exact Hst.
  - cbn [fst nth firstn].
    rewrite IH; [|rewrite gcMalloc_bump; apply Zmod_mod|simpl in Hk; lia].
    rewrite gcMalloc_bump, Zplus_mod_idemp_l, total_rounded_cons.
    f_equal. lia.
Qed.

End Accounting.

(** The allocator only accumulates.  After any run of calls the cursor is
    the initial cursor plus the sum of the rounded sizes, modulo the width of
    [uintptr_t]; the [k]-th call returns the initial cursor plus the rounded
    sizes of the calls before it; and the final state does not depend on the
    order of the requests. *)
Theorem gcMalloc_all_prefix_sums
  (ptr_bits : Z) (sizes : list Z) (st : heap_state) :
  0 <= bump st < 2 ^ ptr_bits ->
  bump (snd (gcMalloc_all ptr_bits sizes st))
  = (bump st + total_rounded sizes) mod 2 ^ ptr_bits
  /\ (forall k, (k < length sizes)%nat ->
        nth k (fst (gcMalloc_all ptr_bits sizes st)) 0
        = (bump st + total_rounded (firstn k sizes)) mod 2 ^ ptr_bits)
  /\ (forall sizes', Permutation sizes sizes' ->
        snd (gcMalloc_all ptr_bits sizes' st) = snd (gcMalloc_all ptr_bits sizes st)).
Proof.
  intros Hb.
  assert (Hst : bump st mod 2 ^ ptr_bits = bump st) by (apply Z.mod_small, Hb).
  split; [apply gcMalloc_all_bump, Hst|].
  split; [intros k Hk; apply gcMalloc_all_nth; assumption|].
  intros sizes' Hperm. apply heap_state_eq.
  - rewrite !gcMalloc_all_heap. reflexivity.
  - rewrite !gcMalloc_all_bump by exact Hst.
    rewrite (total_rounded_permutation sizes sizes' Hperm). reflexivity.
Qed.

Lemma gcMalloc_all_prefix_sums_witness :
  0 <= 4096 < 2 ^ 32
  /\ bump (snd (gcMalloc_all 32 [10; -8; 1] {| heap := 4096; bump := 4096 |}))
     = (4096 + total_rounded [10; -8; 1]) mod 2 ^ 32
  /\ snd (gcMalloc_all 32 [1; 10; -8] {| heap := 4096; bump := 4096 |})
     = snd (gcMalloc_all 32 [10; -8; 1] {| heap := 4096; bump := 4096 |}).
Proof.
  assert (Hb : 0 <= 4096 < 2 ^ 32) by (cbv; split; [discriminate|reflexivity]).
  pose proof (gcMalloc_all_prefix_sums 32 [10; -8; 1]
                {| heap := 4096; bump := 4096 |} Hb) as (Hsum & _ & Hperm).
  refine (conj Hb (conj Hsum (Hperm [1; 10; -8] _))).
  apply Permutation_sym, (Permutation_cons_app [10; -8] [] 1).
  rewrite app_nil_r. apply Permutation_refl.
Defined.

Lemma rounded_size_empty (size : Z) : -3 <= size <= 0 -> rounded_size size = 0.
Proof.
  intros Hs.
  destruct (rounded_size_exact size) as [Hr _]; [apply int32_bounds; lia|].
  rewrite Hr. Z.div_mod_to_equations. lia.
Qed.

Lemma gcMalloc_no_advance (ptr_bits size : Z) (st : heap_state) :
  0 <= bump st < 2 ^ ptr_bits ->
  rounded_size size = 0 ->
  gcMalloc ptr_bits size st = (bump st, st).
Proof.
  intros Hb Hr. unfold gcMalloc. f_equal. apply heap_state_eq; [reflexivity|].
  simpl. unfold to_uintptr, Int.unsigned_wrap.
  rewrite Hr, Zplus_mod_idemp_r, Z.add_0_r. apply Z.mod_small, Hb.
Qed.

(** Requests of no bytes share an address.  Calls with [-3 <= size <= 0]
    all return the current cursor and leave the state as it was, so the
    caller gets the same address every time, the one the next real request
    will get too. *)
Theorem gcMalloc_all_empty_requests
  (ptr_bits : Z) (sizes : list Z) (st : heap_state) :
  0 <= bump st < 2 ^ ptr_bits ->
  Forall (fun size => -3 <= size <= 0) sizes ->
  gcMalloc_all ptr_bits sizes st = (repeat (bump st) (length sizes), st).
Proof.
  intros Hb Hsizes. induction Hsizes as [|size rest Hs _ IH]; [reflexivity|].
  cbn [gcMalloc_all].
  rewrite (gcMalloc_no_advance ptr_bits size st Hb (rounded_size_empty size Hs)).
  rewrite IH. reflexivity.
Qed.

Lemma gcMalloc_all_empty_requests_witness :
  0 <= 4096 < 2 ^ 64
  /\ Forall (fun size => -3 <= size <= 0) [0; -3; 0]
  /\ gcMalloc_all 64 [0; -3; 0] {| heap := 4096; bump := 4096 |}
     = (repeat 4096 (length [0; -3; 0]), {| heap := 4096; bump := 4096 |}).
Proof.
  assert (Hb : 0 <= 4096 < 2 ^ 64) by (cbv; split; [discriminate|reflexivity]).
  assert (Hs : Forall (fun size => -3 <= size <= 0) [0; -3; 0]).
  { repeat constructor; cbv; discriminate. }
  exact (conj Hb (conj Hs
           (gcMalloc_all_empty_requests 64 [0; -3; 0]
              {| heap := 4096; bump := 4096 |} Hb Hs))).
Defined.

(** A negative request takes a block back.  After a positive request, a
    call with minus its rounded size returns the address just past the
    block and restores the state the allocator had before the request, so
    the block's address is handed out again by the next call. *)
Theorem gcMalloc_negative_request_retracts
  (ptr_bits size : Z) (st : heap_state) :
  0 <= bump st < 2 ^ ptr_bits ->
  positive_request size ->
  fst (gcMalloc ptr_bits (- rounded_size size) (snd (gcMalloc ptr_bits size st)))
  = (bump st + rounded_size size) mod 2 ^ ptr_bits
  /\ snd (gcMalloc ptr_bits (- rounded_size size) (snd (gcMalloc ptr_bits size st)))
     = st.
Proof.
  intros Hb Hs.
  pose proof (rounded_size_fits size Hs) as Hr.
  pose proof (rounded_size_multiple_of_4 size) as Hm.
  unfold positive_request in Hs. change INT32_MAX with 2147483647 in Hs.
  assert (Hback : rounded_size (- rounded_size size) = - rounded_size size).
  { destruct (rounded_size_exact (- rounded_size size)) as [He _].
    - apply int32_bounds. lia.
    - rewrite He. Z.div_mod_to_equations. lia. }
  split; [rewrite gcMalloc_addr; apply gcMalloc_bump|].
  apply heap_state_eq; [reflexivity|].
  rewrite gcMalloc_bump, gcMalloc_bump, Hback, Zplus_mod_idemp_l.
  replace (bump st + rounded_size size + - rounded_size size) with (bump st) by lia.
  apply Z.mod_small, Hb.
Qed.

Lemma gcMalloc_negative_request_retracts_witness :
  0 <= 4096 < 2 ^ 32 /\ positive_request 10
  /\ snd (gcMalloc 32 (- rounded_size 10)
            (snd (gcMalloc 32 10 {| heap := 4096; bump := 4096 |})))
     = {| heap := 4096; bump := 4096 |}.
Proof.
  assert (Hb : 0 <= 4096 < 2 ^ 32) by (cbv; split; [discriminate|reflexivity]).
  assert (Hs : positive_request 10) by (cbv; split; [reflexivity|discriminate]).
  exact (conj Hb (conj Hs
           (proj2 (gcMalloc_negative_request_retracts 32 10
                     {| heap := 4096; bump := 4096 |} Hb Hs)))).
Defined.

(** ** From process start to the first allocations *)

(** After [main] has reserved its 16 MiB at a non-null address [p], positive
    requests whose rounded sizes add up to at most 16 MiB are served inside
    the reserved block [[p, p + HEAP_BYTES)], at increasing addresses and
    without overlap; the first request gets the start of the block. *)
Theorem main_then_gcMalloc_all
  (ptr_bits : Z) (malloc : Z -> Z) (sizes : list Z) :
  32 <= ptr_bits ->
  NULL < malloc HEAP_BYTES ->
  malloc HEAP_BYTES + HEAP_BYTES <= 2 ^ ptr_bits ->
  Forall positive_request sizes ->
  total_rounded sizes <= HEAP_BYTES ->
  exists st,
    main ptr_bits malloc = Exited 0 st
    /\ hd (malloc HEAP_BYTES) (fst (gcMalloc_all ptr_bits sizes st))
       = malloc HEAP_BYTES
    /\ StronglySorted Z.lt (fst (gcMalloc_all ptr_bits sizes st))
    /\ ForallOrdPairs disjoint (blocks_of ptr_bits sizes st)
    /\ Forall (fun blk => malloc HEAP_BYTES <= fst blk
                          /\ fst blk + snd blk <= malloc HEAP_BYTES + HEAP_BYTES)
         (blocks_of ptr_bits sizes st).
Proof.
  intros Hw Hp Hroom Hsizes Htotal. unfold NULL in Hp.
  assert (Hcap : HEAP_BYTES = 16777216) by reflexivity.
  assert (Hu : to_uintptr ptr_bits (malloc HEAP_BYTES) = malloc HEAP_BYTES).
  { apply IntFacts.unsigned_wrap_small. unfold Int.in_unsigned. lia. }
  exists {| heap := malloc HEAP_BYTES; bump := malloc HEAP_BYTES |}.
  split; [unfold main; rewrite Hu; reflexivity|].
  destruct (gcMalloc_all_blocks ptr_bits Hw sizes (malloc HEAP_BYTES)
              {| heap := malloc HEAP_BYTES; bump := malloc HEAP_BYTES |})
    as (Hin & Hsorted & Hdisj); try assumption; try lia.
  { simpl. symmetry. apply Z.mod_small. lia. }
  rewrite blocks_of_addrs in Hsorted.
  split.
  { destruct sizes as [|size rest]; [reflexivity|].
    rewrite gcMalloc_all_cons. reflexivity. }
  split; [exact Hsorted|]. split; [exact Hdisj|].
  revert Hin. apply Forall_impl. intros blk. lia.
Qed.

Lemma main_then_gcMalloc_all_witness :
  32 <= 32 /\ NULL < (fun _ : Z => 65536) HEAP_BYTES
  /\ (fun _ : Z => 65536) HEAP_BYTES + HEAP_BYTES <= 2 ^ 32
  /\ Forall positive_request [10; 20; 1]
  /\ total_rounded [10; 20; 1] <= HEAP_BYTES
  /\ exists st,
       main 32 (fun _ => 65536) = Exited 0 st
       /\ hd 65536 (fst (gcMalloc_all 32 [10; 20; 1] st)) = 65536
       /\ StronglySorted Z.lt (fst (gcMalloc_all 32 [10; 20; 1] st))
       /\ ForallOrdPairs disjoint (blocks_of 32 [10; 20; 1] st)
       /\ Forall (fun blk => 65536 <= fst blk
                             /\ fst blk + snd blk <= 65536 + HEAP_BYTES)
            (blocks_of 32 [10; 20; 1] st).
Proof.
  assert (Hw : 32 <= 32) by (cbv; discriminate).
  assert (Hp : NULL < (fun _ : Z => 65536) HEAP_BYTES) by reflexivity.
  assert (Hroom : (fun _ : Z => 65536) HEAP_BYTES + HEAP_BYTES <= 2 ^ 32)
    by (cbv; discriminate).
  assert (Hsizes : Forall positive_request [10; 20; 1]).
  { repeat constructor; cbv; discriminate. }
  assert (Htotal : total_rounded [10; 20; 1] <= HEAP_BYTES) by (cbv; discriminate).
  exact (conj Hw (conj Hp (conj Hroom (conj Hsizes (conj Htotal
           (main_then_gcMalloc_all 32 (fun _ => 65536) [10; 20; 1]
              Hw Hp Hroom Hsizes Htotal)))))).
Defined.

(** After a failed reservation the allocator still serves requests, from
    address 0: [main] leaves both globals [NULL], the first call returns
    [NULL] itself, and a run of positive requests returns the running sums
    of the rounded sizes as addresses. *)
Theorem main_failed_then_gcMalloc_all
  (ptr_bits : Z) (malloc : Z -> Z) (sizes : list Z) :
  32 <= ptr_bits ->
  malloc HEAP_BYTES = NULL ->
  exists st,
    main ptr_bits malloc = Exited 0 st
    /\ (forall size, fst (gcMalloc ptr_bits size st) = NULL)
    /\ (forall k, (k < length sizes)%nat ->
          nth k (fst (gcMalloc_all ptr_bits sizes st)) 0
          = total_rounded (firstn k sizes) mod 2 ^ ptr_bits).
Proof.
  intros Hw Hnull.
  assert (Hpos : 0 < 2 ^ ptr_bits) by (apply Z.pow_pos_nonneg; lia).
  exists {| heap := 0; bump := 0 |}.
  split; [unfold main, to_uintptr, Int.unsigned_wrap;
          rewrite Hnull; unfold NULL; rewrite Z.mod_0_l by lia; reflexivity|].
  split; [reflexivity|].
  intros k Hk. rewrite gcMalloc_all_nth; [reflexivity| |exact Hk].
  simpl. apply Z.mod_0_l. lia.
Qed.

Lemma main_failed_then_gcMalloc_all_witness :
  32 <= 64 /\ (fun _ : Z => NULL) HEAP_BYTES = NULL
  /\ exists st,
       main 64 (fun _ => NULL) = Exited 0 st
       /\ (forall size, fst (gcMalloc 64 size st) = NULL)
       /\ (forall k, (k < length [10; 20])%nat ->
             nth k (fst (gcMalloc_all 64 [10; 20] st)) 0
             = total_rounded (firstn k [10; 20]) mod 2 ^ 64).
Proof.
  assert (Hw : 32 <= 64) by (cbv; discriminate).
  assert (Hnull : (fun _ : Z => NULL) HEAP_BYTES = NULL) by reflexivity.
  exact (conj Hw (conj Hnull
           (main_failed_then_gcMalloc_all 64 (fun _ => NULL) [10; 20] Hw Hnull))).
Defined.
